(** * telegram-logger: the delivery governor, embedded in Rocq

    A shallow embedding of the stateful core of the repository:

    - [TelegramClient] (src/utils/telegram.js): [truncateMessage],
      [sendMessage], [sendMessageWithRetry];
    - [TelegramErrorLogger] (src/index.js): the constructor,
      [checkRateLimit], [getErrorHash], [isDuplicate], [recordError],
      [sendError], [sendCustomMessage], [sendRawMessage], and the
      callback of [startCleanupInterval] ([cleanupTick]);
    - [MessageFormatter] and [ErrorFormatter] (src/formatters):
      [escapeHtml], [sanitizeBody], [sanitizeHeaders], [formatObject],
      [formatStackTrace].

    Modelling conventions.

    - JavaScript numbers that hold timestamps, counters and durations are
      integers of [Z]; [x || d] on such a number is [js_or x d] (0 and
      [undefined] both select the default).
    - A character of a [string] stands for one UTF-16 code unit, so
      [String.length] is JavaScript's [.length] and
      [String.substring 0 n] is [.substring(0, n)].
    - [errorCounts] and [errorHashes] are the two [Map]s of the logger.
      Only lookups, inserts, deletes and an order-insensitive sum are
      performed on them, so they are finite maps ([gmap]).
    - The outside world is explicit: [Date.now()] and [axios.post] are
      oracles of the system state (the n-th call returns the n-th answer
      of the oracle), and every observable action ([axios.post],
      [setTimeout], [console.warn], [console.error]) is appended to a
      trace.
    - [try]/[catch], [throw] and [await] are the operations of a
      state-and-exception monad [M].  Thrown values are [Error] objects
      (they carry a [message]), which is what the JavaScript runtime and
      axios raise.
    - The two formatters are collaborators of the logger object; a
      formatter call either returns the rendered text or throws.
    - One call runs from start to end: calls in flight at the same time
      and the timer callback of [startCleanupInterval] are not
      interleaved with it (a run of the callback between two calls is
      the operation [cleanupTick]).  Of the payload of a request only
      the text and the timeout are kept.
    - [JSON.stringify] is a parameter of [formatObject]. *)

From Stdlib Require Import ZArith Ascii String List Lia.
From stdpp Require Import gmap strings list fin_maps.

Local Open Scope Z_scope.

(** ** Values, errors and the outside world *)

(** What a call may hand back: [VNull] is [null] (or any falsy body),
    [VData] is a response body (a JavaScript object, truthy). *)
Inductive value : Type :=
| VNull
| VData (body : string).

Definition truthy (v : value) : bool :=
  match v with
  | VNull => false
  | VData _ => true
  end.

(** A JavaScript [Error]: the two fields the governor reads. *)
Record JsError : Type := mkError {
  error_name : string;      (* error.name *)
  error_message : string    (* error.message *)
}.

(** The request context: the two fields [getErrorHash] reads. *)
Record Context : Type := mkContext {
  route : option string;
  url : option string
}.

(** Options of [sendMessage]: the request timeout. *)
Record SendOptions : Type := mkSendOptions {
  timeout : option Z
}.

Definition noOptions : SendOptions := {| timeout := None |}.

(** Options of [sendCustomMessage]; read only by the formatter. *)
Record MessageOptions : Type := mkMessageOptions {
  level : option string;
  title : option string
}.

(** One [axios.post]: resolves with [response.data] or rejects. *)
Inductive outcome : Type :=
| Resolved (data : value)
| Rejected (reason : JsError).

(** How a computation ends: normally, or by throwing. *)
Inductive completion (A : Type) : Type :=
| Normal (a : A)
| Throw (e : JsError).
Arguments Normal {A} a.
Arguments Throw {A} e.

(** Observable actions, one constructor per call site. *)
Inductive event : Type :=
| Post (text : string) (timeoutMs : Z)
    (* axios.post(`${baseUrl}/sendMessage`, {text, ...}, {timeout}) *)
| Sleep (ms : Z)
    (* await new Promise(resolve => setTimeout(resolve, ms)) *)
| WarnRateLimit
    (* console.warn('... Rate limit exceeded, skipping error') *)
| WarnDuplicate
    (* console.warn('... Duplicate error detected, skipping') *)
| LogSendMessageFailed (cause : string)
    (* console.error('Failed to send Telegram message:', error.message) *)
| LogRetriesExhausted (retries : Z) (cause : option string)
    (* console.error(`Failed ... after ${retries} retries:`, lastError?.message) *)
| LogSendErrorFailed (cause : string)
    (* console.error('Failed to send error to Telegram:', err.message) *)
| LogCustomFailed (cause : string)
    (* console.error('Failed to send custom message to Telegram:', ...) *)
| LogRawFailed (cause : string).
    (* console.error('Failed to send raw message to Telegram:', ...) *)

(** The mutable state of one logger together with its environment. *)
Record Sys : Type := mkSys {
  errorCounts : gmap Z Z;        (* this.errorCounts: timestamp -> count *)
  errorHashes : gmap string Z;   (* this.errorHashes: hash -> last seen *)
  clock : nat -> Z;              (* the answers of Date.now() *)
  reads : nat;                   (* how many were consumed *)
  network : nat -> outcome;      (* the answers of axios.post *)
  posts : nat;                   (* how many were consumed *)
  trace : list event             (* observable actions, oldest first *)
}.

Definition with_errorCounts (m : gmap Z Z) (s : Sys) : Sys :=
  mkSys m (errorHashes s) (clock s) (reads s) (network s) (posts s) (trace s).

Definition with_errorHashes (m : gmap string Z) (s : Sys) : Sys :=
  mkSys (errorCounts s) m (clock s) (reads s) (network s) (posts s) (trace s).

Definition emit (e : event) (s : Sys) : Sys :=
  mkSys (errorCounts s) (errorHashes s) (clock s) (reads s) (network s)
        (posts s) (trace s ++ [e]).

(** ** The monad of the embedding *)

Definition M (A : Type) : Type := Sys -> completion A * Sys.

Definition ret {A} (a : A) : M A := fun s => (Normal a, s).

Definition bind {A B} (m : M A) (k : A -> M B) : M B :=
  fun s =>
    match m s with
    | (Normal a, s') => k a s'
    | (Throw e, s') => (Throw e, s')
    end.

(** [try { m } catch (e) { h e }] *)
Definition try_catch {A} (m : M A) (h : JsError -> M A) : M A :=
  fun s =>
    match m s with
    | (Normal a, s') => (Normal a, s')
    | (Throw e, s') => h e s'
    end.

(** A pure call that may throw. *)
Definition call {A} (c : completion A) : M A := fun s => (c, s).

Notation "x <- m ;; k" := (bind m (fun x => k))
  (at level 100, m at next level, right associativity).
Notation "m ;;; k" := (bind m (fun _ => k))
  (at level 100, right associativity).

Definition log (e : event) : M unit := fun s => (Normal tt, emit e s).

(** [Date.now()] *)
Definition Date_now : M Z :=
  fun s =>
    (Normal (clock s (reads s)),
     mkSys (errorCounts s) (errorHashes s) (clock s) (S (reads s))
           (network s) (posts s) (trace s)).

(** [await axios.post(url, {text, ...}, {timeout})] *)
Definition axios_post (text : string) (timeoutMs : Z) : M value :=
  fun s =>
    let s' := mkSys (errorCounts s) (errorHashes s) (clock s) (reads s)
                    (network s) (S (posts s))
                    (trace s ++ [Post text timeoutMs]) in
    match network s (posts s) with
    | Resolved data => (Normal data, s')
    | Rejected reason => (Throw reason, s')
    end.

(** [await new Promise(resolve => setTimeout(resolve, ms))] *)
Definition sleep (ms : Z) : M unit := log (Sleep ms).

(** [x || d] on a number that may be missing. *)
Definition js_or (x : option Z) (d : Z) : Z :=
  match x with
  | Some v => if v =? 0 then d else v
  | None => d
  end.

(** Truthiness of an optional string ([undefined] and [''] are falsy). *)
Definition truthy_string (x : option string) : bool :=
  match x with
  | Some v => negb (String.eqb v EmptyString)
  | None => false
  end.

(** ** TelegramClient (src/utils/telegram.js) *)

Module TelegramClient.

(** [this.maxMessageLength = 4096] *)
Definition maxMessageLength : nat := 4096.

Definition newline : string := String (Ascii.ascii_of_nat 10) EmptyString.

(** ['\n\n... (message truncated)'] *)
Definition truncationNotice : string :=
  (newline ++ newline ++ "... (message truncated)")%string.

Definition truncateMessage (message : string) : string :=
  if (String.length message <=? maxMessageLength)%nat then message
  else
    let maxLength := (maxMessageLength - String.length truncationNotice)%nat in
    (String.substring 0 maxLength message ++ truncationNotice)%string.

Definition sendMessage (message : string) (options : SendOptions) : M value :=
  try_catch
    (let truncatedMessage := truncateMessage message in
     data <- axios_post truncatedMessage (js_or (timeout options) 10000) ;;
     ret data)
    (fun error =>
       log (LogSendMessageFailed (error_message error)) ;;;
       ret VNull).

(** What one iteration of the retry loop decides. *)
Inductive iteration : Type :=
| Return (result : value)
| Continue (lastError : option JsError).

(** The [for (let i = 0; i < retries; i++)] loop, entered at index [i]
    with [remaining] iterations to go ([Z.to_nat retries] at [i = 0]). *)
Fixpoint retryLoop (message : string) (options : SendOptions) (retries : Z)
    (remaining : nat) (i : Z) (lastError : option JsError) : M value :=
  match remaining with
  | O =>
      log (LogRetriesExhausted retries (option_map error_message lastError)) ;;;
      ret VNull
  | S remaining' =>
      step <- try_catch
                (result <- sendMessage message options ;;
                 ret (if truthy result then Return result
                      else Continue lastError))
                (fun error =>
                   (if i <? retries - 1
                    then sleep (2 ^ i * 1000)
                    else ret tt) ;;;
                   ret (Continue (Some error))) ;;
      match step with
      | Return result => ret result
      | Continue lastError' =>
          retryLoop message options retries remaining' (i + 1) lastError'
      end
  end.

Definition sendMessageWithRetry (message : string) (options : SendOptions)
    (retries : Z) : M value :=
  retryLoop message options retries (Z.to_nat retries) 0 None.

End TelegramClient.

(** ** TelegramErrorLogger (src/index.js) *)

Module TelegramErrorLogger.

(** The configuration object handed to the constructor; every field may
    be missing. *)
Record RawConfig : Type := mkRawConfig {
  raw_botToken : option string;
  raw_chatId : option string;
  raw_errorFilter : option (JsError -> Context -> completion bool);
  raw_rateLimitWindow : option Z;
  raw_rateLimitMax : option Z;
  raw_deduplicate : option bool;
  raw_deduplicateWindow : option Z;
  raw_retryAttempts : option Z
}.

(** [this.config], the fields the governor reads.  A filter returns a
    truthy or falsy value, or throws. *)
Record Config : Type := mkConfig {
  errorFilter : option (JsError -> Context -> completion bool);
  rateLimitWindow : Z;
  rateLimitMax : Z;
  deduplicate : bool;
  deduplicateWindow : Z;
  retryAttempts : Z
}.

(** The logger object: its configuration and its two formatters. *)
Record Logger : Type := mkLogger {
  config : Config;
  errorFormatter_format : JsError -> Context -> completion string;
  messageFormatter_format : string -> MessageOptions -> completion string
}.

Definition get_errorCounts : M (gmap Z Z) := fun s => (Normal (errorCounts s), s).
Definition set_errorCounts (m : gmap Z Z) : M unit :=
  fun s => (Normal tt, with_errorCounts m s).
Definition get_errorHashes : M (gmap string Z) := fun s => (Normal (errorHashes s), s).
Definition set_errorHashes (m : gmap string Z) : M unit :=
  fun s => (Normal tt, with_errorHashes m s).

(** [constructor(config = {})]: validation, defaults, fresh maps. *)
Definition constructor (raw : RawConfig)
    (errorFormatter : JsError -> Context -> completion string)
    (messageFormatter : string -> MessageOptions -> completion string)
    : M Logger :=
  if negb (truthy_string (raw_botToken raw)) then
    call (Throw (mkError "Error" "Telegram bot token is required"))
  else if negb (truthy_string (raw_chatId raw)) then
    call (Throw (mkError "Error" "Telegram chat ID is required"))
  else
    let cfg := {|
      errorFilter := raw_errorFilter raw;
      rateLimitWindow := js_or (raw_rateLimitWindow raw) 60000;
      rateLimitMax := js_or (raw_rateLimitMax raw) 10;
      deduplicate := default false (raw_deduplicate raw);
      deduplicateWindow := js_or (raw_deduplicateWindow raw) 300000;
      retryAttempts := js_or (raw_retryAttempts raw) 3
    |} in
    set_errorCounts ∅ ;;;
    set_errorHashes ∅ ;;;
    ret (mkLogger cfg errorFormatter messageFormatter).

(** The sum of the counts held by the map:
    [Array.from(this.errorCounts.values()).reduce((sum, count) => sum + count, 0)] *)
Definition sumCounts (m : gmap Z Z) : Z :=
  map_fold (fun _ count sum => sum + count) 0 m.

(** The eviction loop: delete every entry with [timestamp < windowStart]. *)
Definition cleanOld (windowStart : Z) (m : gmap Z Z) : gmap Z Z :=
  filter (fun entry : Z * Z => ¬ (entry.1 < windowStart)) m.

Definition checkRateLimit (L : Logger) : M bool :=
  now <- Date_now ;;
  let windowStart := now - rateLimitWindow (config L) in
  (* Clean old entries *)
  counts <- get_errorCounts ;;
  set_errorCounts (cleanOld windowStart counts) ;;;
  (* Count errors in current window *)
  counts <- get_errorCounts ;;
  let errorCount := sumCounts counts in
  if bool_decide (errorCount >= rateLimitMax (config L)) then ret false
  else
    (* Record this error *)
    set_errorCounts (<[now := js_or (counts !! now) 0 + 1]> counts) ;;;
    ret true.

(** [`${error.name}:${error.message}:${context.route || context.url || ''}`] *)
Definition getErrorHash (error : JsError) (context : Context) : string :=
  let place :=
    if truthy_string (route context) then default EmptyString (route context)
    else if truthy_string (url context) then default EmptyString (url context)
    else EmptyString in
  (error_name error ++ ":" ++ error_message error ++ ":" ++ place)%string.

(** [!lastSeen] holds when there is no record and when the recorded
    number is 0. *)
Definition isDuplicate (L : Logger) (errorHash : string) : M bool :=
  hashes <- get_errorHashes ;;
  match hashes !! errorHash with
  | None => ret false                       (* !undefined *)
  | Some lastSeen =>
      if lastSeen =? 0 then ret false       (* !0 *)
      else
        now <- Date_now ;;
        ret (now - lastSeen <? deduplicateWindow (config L))
  end.

Definition recordError (errorHash : string) : M unit :=
  now <- Date_now ;;
  hashes <- get_errorHashes ;;
  set_errorHashes (<[errorHash := now]> hashes).

(** The [// Check deduplication] block of [sendError], entered when
    [this.config.deduplicate] holds: [false] where the source leaves
    [sendError] with [null], [true] where it goes on. *)
Definition checkDeduplication (L : Logger) (error : JsError) (context : Context)
    : M bool :=
  let errorHash := getErrorHash error context in
  duplicate <- isDuplicate L errorHash ;;
  if duplicate then
    log WarnDuplicate ;;;
    ret false
  else
    recordError errorHash ;;;
    ret true.

(** The tail of [sendError]: format the error, send to Telegram. *)
Definition deliverError (L : Logger) (error : JsError) (context : Context)
    : M value :=
  formattedMessage <- call (errorFormatter_format L error context) ;;
  TelegramClient.sendMessageWithRetry formattedMessage noOptions
    (retryAttempts (config L)).

Definition sendError (L : Logger) (error : JsError) (context : Context)
    : M value :=
  try_catch
    ((* Apply error filter if configured *)
     pass <- match errorFilter (config L) with
             | Some filter_fn => call (filter_fn error context)
             | None => ret true
             end ;;
     if negb pass then ret VNull
     else
       (* Check rate limiting *)
       withinLimit <- checkRateLimit L ;;
       if negb withinLimit then
         log WarnRateLimit ;;;
         ret VNull
       else if deduplicate (config L) then
         (* Check deduplication *)
         fresh <- checkDeduplication L error context ;;
         if fresh then deliverError L error context else ret VNull
       else deliverError L error context)
    (fun err =>
       log (LogSendErrorFailed (error_message err)) ;;;
       ret VNull).

Definition sendCustomMessage (L : Logger) (message : string)
    (options : MessageOptions) : M value :=
  try_catch
    (formattedMessage <- call (messageFormatter_format L message options) ;;
     TelegramClient.sendMessageWithRetry formattedMessage noOptions
       (retryAttempts (config L)))
    (fun error =>
       log (LogCustomFailed (error_message error)) ;;;
       ret VNull).

Definition sendRawMessage (L : Logger) (message : string)
    (options : SendOptions) : M value :=
  try_catch
    (TelegramClient.sendMessage message options)
    (fun error =>
       log (LogRawFailed (error_message error)) ;;;
       ret VNull).

End TelegramErrorLogger.

Import TelegramClient TelegramErrorLogger.

(** ** Drivers used to state properties of several calls *)

(** [n] consecutive calls of [checkRateLimit], results oldest first. *)
Fixpoint checkRateLimitTimes (L : Logger) (n : nat) : M (list bool) :=
  match n with
  | O => ret []
  | S n' =>
      admitted <- checkRateLimit L ;;
      rest <- checkRateLimitTimes L n' ;;
      ret (admitted :: rest)
  end.

(** The total of the counts recorded at a timestamp of age at most [W]
    at time [now] (age of [t]: [now - t]). *)
Definition countInWindow (now W : Z) (m : gmap Z Z) : Z :=
  sumCounts (filter (fun entry : Z * Z => now - entry.1 <= W) m).

(** The same total over the entries of age strictly less than [W]. *)
Definition countYounger (now W : Z) (m : gmap Z Z) : Z :=
  sumCounts (filter (fun entry : Z * Z => now - entry.1 < W) m).

(** The state after one [Date.now()]. *)
Definition tick (s : Sys) : Sys :=
  mkSys (errorCounts s) (errorHashes s) (clock s) (S (reads s))
        (network s) (posts s) (trace s).

(** ** Notions used in the statements *)

(** An attempt fails when the request is rejected or resolves with a
    falsy body. *)
Definition fails (o : outcome) : bool :=
  match o with
  | Resolved data => negb (truthy data)
  | Rejected _ => true
  end.

Definition isSleep (e : event) : bool :=
  match e with
  | Sleep _ => true
  | _ => false
  end.

(** The state after one [axios.post]. *)
Definition posted (text : string) (timeoutMs : Z) (s : Sys) : Sys :=
  mkSys (errorCounts s) (errorHashes s) (clock s) (reads s) (network s)
        (S (posts s)) (trace s ++ [Post text timeoutMs]).

(** The delivery pipeline leaves the limiter, the deduplicator and both
    oracles alone. *)
Definition sameLoggerState (s s' : Sys) : Prop :=
  errorCounts s' = errorCounts s
  ∧ errorHashes s' = errorHashes s
  ∧ clock s' = clock s
  ∧ reads s' = reads s
  ∧ network s' = network s.


(** The logger with another [errorFilter]. *)
Definition withErrorFilter
    (f : option (JsError -> Context -> completion bool)) (L : Logger) : Logger :=
  mkLogger
    (mkConfig f (rateLimitWindow (config L)) (rateLimitMax (config L))
       (deduplicate (config L)) (deduplicateWindow (config L))
       (retryAttempts (config L)))
    (errorFormatter_format L) (messageFormatter_format L).

(** What the filter stage of [sendError] yields. *)
Definition filterVerdict (L : Logger) (error : JsError) (context : Context)
    : completion bool :=
  match errorFilter (config L) with
  | Some filter_fn => filter_fn error context
  | None => Normal true
  end.

(** The duplicate check of [sendError] lets the event pass: there is no
    record, or its stamp reads 0, or it is at least [deduplicateWindow]
    old at the second clock reading of the call. *)
Definition notDuplicate (L : Logger) (error : JsError) (context : Context)
    (s : Sys) : Prop :=
  match errorHashes s !! getErrorHash error context with
  | None => True
  | Some lastSeen =>
      lastSeen = 0
      ∨ deduplicateWindow (config L) <= clock s (S (reads s)) - lastSeen
  end.

(** ** Sample data for concrete runs *)

(** A logger with the given limits, no filter, and formatters that hand
    back the message text; used for concrete runs. *)
Definition sampleLogger (W C : Z) (dedup : bool) (dedupW retries : Z) : Logger :=
  mkLogger (mkConfig None W C dedup dedupW retries)
           (fun error _ => Normal (error_message error))
           (fun message _ => Normal message).

(** A fresh system: empty maps, nothing consumed, nothing observed. *)
Definition freshSys (clk : nat -> Z) (net : nat -> outcome) : Sys :=
  mkSys ∅ ∅ clk 0 net 0 [].

Definition alwaysOk : nat -> outcome := fun _ => Resolved (VData "ok").

(** A transport that rejects twice and then answers. *)
Definition failTwiceThenOk : nat -> outcome :=
  fun n =>
    match n with
    | 0%nat | 1%nat => Rejected (mkError "Error" "Network error")
    | _ => Resolved (VData "ok")
    end.

(** A transport that always rejects. *)
Definition alwaysRejects : nat -> outcome :=
  fun _ => Rejected (mkError "Error" "Network error").

(** A string made of [n] copies of ["a"]. *)
Definition longMessage (n : nat) : string :=
  string_of_list_ascii (repeat "a"%char n).

(** The error and the context of the concrete runs. *)
Definition sampleError : JsError := mkError "Error" "Duplicate error".
Definition sampleContext : Context := mkContext (Some "/test") None.


(** A filter that lets only errors named ["ServerError"] pass. *)
Definition serverErrorsOnly : JsError → Context → completion bool :=
  fun error _ => Normal (String.eqb (error_name error) "ServerError").



(** ** The periodic sweep (src/index.js, [startCleanupInterval]) *)

(** The eviction loop over [this.errorHashes]: delete every entry with
    [timestamp < deduplicateWindowStart]. *)
Definition cleanOldHashes (windowStart : Z) (m : gmap string Z) : gmap string Z :=
  filter (fun entry : string * Z => ¬ (entry.2 < windowStart)) m.

(** The callback that [startCleanupInterval] hands to [setInterval]:
    one run of the sweep. *)
Definition cleanupTick (L : Logger) : M unit :=
  now <- Date_now ;;
  let rateLimitWindowStart := now - rateLimitWindow (config L) in
  let deduplicateWindowStart := now - deduplicateWindow (config L) in
  (* Clean rate limit entries *)
  counts <- get_errorCounts ;;
  set_errorCounts (cleanOld rateLimitWindowStart counts) ;;;
  (* Clean deduplication entries *)
  hashes <- get_errorHashes ;;
  set_errorHashes (cleanOldHashes deduplicateWindowStart hashes).

(** Every count held by the limiter is positive. *)
Definition countsPositive (m : gmap Z Z) : Prop :=
  ∀ t c, m !! t = Some c → 0 < c.

(** ** Observations on the trace *)



(** ** MessageFormatter (src/formatters/messageFormatter.js) *)

Module MessageFormatter.

(** [text.replace(/c/g, by)] for a pattern of one literal character:
    every occurrence of [c], left to right, is replaced. *)
Fixpoint replaceAll (c : ascii) (replacement : string) (text : string) : string :=
  match text with
  | EmptyString => EmptyString
  | String x rest =>
      if Ascii.eqb x c
      then (replacement ++ replaceAll c replacement rest)%string
      else String x (replaceAll c replacement rest)
  end.

Definition escapeHtml (text : string) : string :=
  replaceAll ">" "&gt;"
    (replaceAll "<" "&lt;"
       (replaceAll "&" "&amp;" text)).

End MessageFormatter.

(** ** ErrorFormatter (src/formatters/errorFormatter.js) *)

Module ErrorFormatter.

(** The values of a request body or of a set of headers.  [JObj] is a
    nested object (or array): always truthy. *)
#[warnings="-register-all"]
Inductive JsValue : Type :=
| JNull
| JBool (b : bool)
| JNum (n : Z)
| JStr (text : string)
| JObj (fields : list (string * JsValue)).

Definition truthyValue (v : JsValue) : bool :=
  match v with
  | JNull => false
  | JBool b => b
  | JNum n => negb (n =? 0)
  | JStr text => negb (String.eqb text EmptyString)
  | JObj _ => true
  end.

Definition escapeHtml (text : string) : string :=
  MessageFormatter.replaceAll ">" "&gt;"
    (MessageFormatter.replaceAll "<" "&lt;"
       (MessageFormatter.replaceAll "&" "&amp;" text)).

Definition redacted : JsValue := JStr "[REDACTED]".

(** The loop shared by [sanitizeBody] and [sanitizeHeaders]:
    [for (const field of fields) if (sanitized[field]) sanitized[field] = '[REDACTED]'] *)
Definition redactLoop (fields : list string) (sanitized : gmap string JsValue)
    : gmap string JsValue :=
  foldl (fun sanitized field =>
           match sanitized !! field with
           | Some v =>
               if truthyValue v then <[field := redacted]> sanitized
               else sanitized
           | None => sanitized
           end)
        sanitized fields.

Definition sensitiveFields : list string :=
  ["password"; "token"; "secret"; "apiKey"; "api_key"; "authorization"].

Definition sensitiveHeaders : list string :=
  ["authorization"; "cookie"; "x-api-key"; "x-auth-token"].

Definition sanitizeBody (body : gmap string JsValue) : gmap string JsValue :=
  let sanitized := body in   (* { ...body } *)
  redactLoop sensitiveFields sanitized.

Definition sanitizeHeaders (headers : gmap string JsValue) : gmap string JsValue :=
  let sanitized := headers in   (* { ...headers } *)
  redactLoop sensitiveHeaders sanitized.

(** [formatObject(obj)].  [JSON.stringify] is a parameter: it returns a
    string, returns [undefined] ([None]) or throws; reading [.length] of
    [undefined] throws inside the [try]. *)
Definition formatObject {A} (stringify : A → completion (option string))
    (obj : A) : string :=
  match stringify obj with
  | Normal (Some str) =>
      if (500 <? String.length str)%nat
      then (escapeHtml (String.substring 0 500 str) ++ "...")%string
      else escapeHtml str
  | Normal None => "[Unable to serialize]"
  | Throw _ => "[Unable to serialize]"
  end.

(** [text.split(sep)] for a separator of one character. *)
Fixpoint split (sep : ascii) (text : string) : list string :=
  match text with
  | EmptyString => [EmptyString]
  | String c rest =>
      if Ascii.eqb c sep then EmptyString :: split sep rest
      else
        match split sep rest with
        | line :: lines => String c line :: lines
        | [] => [String c EmptyString]
        end
  end.

(** [lines.join(sep)] *)
Fixpoint join (sep : string) (lines : list string) : string :=
  match lines with
  | [] => EmptyString
  | [line] => line
  | line :: rest => (line ++ sep ++ join sep rest)%string
  end.

(** [lines.slice(0, stop)]: a negative [stop] counts from the end. *)
Definition slice0 {A} (stop : Z) (lines : list A) : list A :=
  if stop <? 0
  then take (Z.to_nat (Z.of_nat (length lines) + stop)) lines
  else take (Z.to_nat stop) lines.

Definition lineFeed : ascii := Ascii.ascii_of_nat 10.

Definition stackTraceOpen : string :=
  ("<b>📚 Stack Trace</b>" ++ String lineFeed "<code>")%string.

Definition stackTraceTruncated : string :=
  String lineFeed "<i>... (truncated)</i>".

(** [formatStackTrace(stack)], with [this.maxStackTraceLines]. *)
Definition formatStackTrace (maxStackTraceLines : Z) (stack : string) : string :=
  let lines := slice0 maxStackTraceLines (split lineFeed stack) in
  let truncated :=
    maxStackTraceLines <? Z.of_nat (length (split lineFeed stack)) in
  let formatted :=
    (stackTraceOpen ++ escapeHtml (join (String lineFeed EmptyString) lines)
       ++ "</code>")%string in
  if truncated then (formatted ++ stackTraceTruncated)%string else formatted.

End ErrorFormatter.

(** ** Notions used in the statements about the formatters *)

(** [c] occurs in [text]. *)
Fixpoint occursIn (c : ascii) (text : string) : bool :=
  match text with
  | EmptyString => false
  | String x rest => Ascii.eqb x c || occursIn c rest
  end.

(** The escaping of [text] in one pass, character by character. *)
Fixpoint escapeEach (text : string) : string :=
  match text with
  | EmptyString => EmptyString
  | String c rest =>
      if Ascii.eqb c "&" then
        String "&" (String "a" (String "m" (String "p" (String ";"
          (escapeEach rest)))))
      else if Ascii.eqb c "<" then
        String "&" (String "l" (String "t" (String ";" (escapeEach rest))))
      else if Ascii.eqb c ">" then
        String "&" (String "g" (String "t" (String ";" (escapeEach rest))))
      else String c (escapeEach rest)
  end.

(** ** Sequences of operations on one logger *)

(** What may happen to a logger: a call of one of its entry points, a
    direct call of [checkRateLimit], or a run of the periodic sweep. *)
Inductive operation : Type :=
| OpSendError (error : JsError) (context : Context)
| OpSendCustomMessage (message : string) (options : MessageOptions)
| OpSendRawMessage (message : string) (options : SendOptions)
| OpCheckRateLimit
| OpCleanupTick.

(** The state after one operation (its result is dropped). *)
Definition afterOperation (L : Logger) (op : operation) (s : Sys) : Sys :=
  match op with
  | OpSendError error context => (sendError L error context s).2
  | OpSendCustomMessage message options =>
      (sendCustomMessage L message options s).2
  | OpSendRawMessage message options => (sendRawMessage L message options s).2
  | OpCheckRateLimit => (checkRateLimit L s).2
  | OpCleanupTick => (cleanupTick L s).2
  end.

(** The state after a sequence of operations, oldest first. *)
Definition afterOperations (L : Logger) (ops : list operation) (s : Sys) : Sys :=
  foldl (fun s op => afterOperation L op s) s ops.

(** ** Further notions and sample data *)

(** A body with a password, an empty token, a capitalised key and a
    nested object. *)
Definition sampleBody : gmap string ErrorFormatter.JsValue :=
  {[ "username" := ErrorFormatter.JStr "john";
     "password" := ErrorFormatter.JStr "secret123";
     "token" := ErrorFormatter.JStr "";
     "Password" := ErrorFormatter.JStr "other";
     "user" := ErrorFormatter.JObj [("password", ErrorFormatter.JStr "nested")] ]}.

Definition sampleHeaders : gmap string ErrorFormatter.JsValue :=
  {[ "content-type" := ErrorFormatter.JStr "application/json";
     "authorization" := ErrorFormatter.JStr "Bearer abc";
     "Cookie" := ErrorFormatter.JStr "sid=1" ]}.

Definition sampleStack : string :=
  "Error: boom" ++ String ErrorFormatter.lineFeed "    at f (a.js:1:1)"
  ++ String ErrorFormatter.lineFeed "    at g (b.js:2:2)".

(** A formatter that throws. *)
Definition throwingFormatter : JsError → Context → completion string :=
  fun _ _ => Throw (mkError "TypeError" "cannot render").

(** The counts are positive and their total is at most [bound]. *)
Definition limiterWithin (bound : Z) (s : Sys) : Prop :=
  countsPositive (errorCounts s) ∧ sumCounts (errorCounts s) <= bound.

(** * Properties *)

(** ** The rate limiter *)

Section RateLimiter.

Implicit Types (m : gmap Z Z) (s : Sys) (L : Logger).

Lemma js_or_zero (x : option Z) : js_or x 0 = default 0 x.
Proof.
  destruct x as [v|]; simpl; [|done].
  destruct (Z.eqb_spec v 0); congruence.
Qed.

Lemma sumCounts_empty : sumCounts ∅ = 0.
Proof. apply map_fold_empty. Qed.

Lemma sumCounts_insert_fresh m t c :
  m !! t = None → sumCounts (<[t:=c]> m) = sumCounts m + c.
Proof.
  intros Hnone. unfold sumCounts.
  rewrite map_fold_insert_L; [done| |done].
  intros; lia.
Qed.

Lemma sumCounts_delete m t c :
  m !! t = Some c → sumCounts m = sumCounts (delete t m) + c.
Proof.
  intros Hsome. unfold sumCounts.
  rewrite (map_fold_delete_L _ _ t c m); [done| |done].
  intros; lia.
Qed.

(** Recording one admission at [t] adds one to the total. *)
Lemma sumCounts_record m t :
  sumCounts (<[t := js_or (m !! t) 0 + 1]> m) = sumCounts m + 1.
Proof.
  rewrite js_or_zero.
  destruct (m !! t) as [c|] eqn:Hlook; simpl.
  - rewrite <- insert_delete_eq.
    rewrite sumCounts_insert_fresh by apply lookup_delete_eq.
    rewrite (sumCounts_delete m t c Hlook). lia.
  - rewrite sumCounts_insert_fresh by done. lia.
Qed.

(** The eviction loop keeps exactly the entries of age at most [W]. *)
Lemma cleanOld_window now W m :
  cleanOld (now - W) m = filter (fun entry : Z * Z => now - entry.1 <= W) m.
Proof.
  unfold cleanOld. apply map_filter_ext. intros t c _. simpl. lia.
Qed.

Lemma cleanOld_id now W m :
  (∀ t c, m !! t = Some c → now - t <= W) → cleanOld (now - W) m = m.
Proof.
  intros Hall. unfold cleanOld. apply map_filter_id.
  intros t c Hlook. simpl. specialize (Hall t c Hlook). lia.
Qed.

(** What one call of [checkRateLimit] does. *)
Lemma checkRateLimit_run L s :
  let now := clock s (reads s) in
  let kept := cleanOld (now - rateLimitWindow (config L)) (errorCounts s) in
  checkRateLimit L s =
    if bool_decide (sumCounts kept >= rateLimitMax (config L))
    then (Normal false, with_errorCounts kept (tick s))
    else (Normal true,
          with_errorCounts (<[now := js_or (kept !! now) 0 + 1]> kept) (tick s)).
Proof.
  intros now kept. unfold checkRateLimit, bind, Date_now, get_errorCounts,
    set_errorCounts, ret, with_errorCounts, tick. simpl.
  fold now. fold kept.
  destruct (bool_decide (sumCounts kept >= rateLimitMax (config L))); reflexivity.
Qed.

Lemma checkRateLimit_step L s :
  let now := clock s (reads s) in
  let W := rateLimitWindow (config L) in
  let C := rateLimitMax (config L) in
  let inWindow := filter (fun entry : Z * Z => now - entry.1 <= W) (errorCounts s) in
  ∃ s',
    checkRateLimit L s =
      (Normal (bool_decide (countInWindow now W (errorCounts s) < C)), s')
    ∧ (∀ t, W < now - t → t ≠ now → errorCounts s' !! t = None)
    ∧ (C <= countInWindow now W (errorCounts s) → errorCounts s' = inWindow)
    ∧ (countInWindow now W (errorCounts s) < C →
       errorCounts s' = <[now := default 0 (inWindow !! now) + 1]> inWindow)
    ∧ errorHashes s' = errorHashes s
    ∧ reads s' = S (reads s)
    ∧ posts s' = posts s
    ∧ trace s' = trace s.
Proof.
  intros now W C inWindow.
  pose proof (checkRateLimit_run L s) as Hrun. simpl in Hrun.
  fold now W C in Hrun. rewrite cleanOld_window in Hrun. fold inWindow in Hrun.
  unfold countInWindow. fold inWindow.
  assert (Hold : ∀ t, W < now - t → inWindow !! t = None).
  { intros t Hage. apply map_lookup_filter_None_2. right.
    intros c _. simpl. lia. }
  destruct (bool_decide (sumCounts inWindow >= C)) eqn:Hfull.
  - apply bool_decide_eq_true in Hfull.
    eexists. split; [rewrite Hrun; f_equal; f_equal|].
    { symmetry. apply bool_decide_eq_false. lia. }
    simpl. repeat split; try done; try lia. intros t Hage _. by apply Hold.
  - apply bool_decide_eq_false in Hfull.
    eexists. split; [rewrite Hrun; f_equal; f_equal|].
    { symmetry. apply bool_decide_eq_true. lia. }
    simpl. repeat split; try done; try lia.
    + intros t Hage Hne. rewrite lookup_insert_ne by done. by apply Hold.
    + intros _. by rewrite js_or_zero.
Qed.

(** A burst: [n] calls whose clock readings never lie more than [W]
    after an earlier one of the burst, entered with total [sigma] and
    only entries that stay in the window of every call. *)
Lemma checkRateLimit_burst_from L n : ∀ s,
  (∀ t c j, errorCounts s !! t = Some c → (j < n)%nat →
            clock s (reads s + j) - t <= rateLimitWindow (config L)) →
  (∀ i j, (i < j < n)%nat →
          clock s (reads s + j) - clock s (reads s + i)
            <= rateLimitWindow (config L)) →
  ∃ s',
    checkRateLimitTimes L n s =
      (Normal (map (fun k : nat =>
                 bool_decide (sumCounts (errorCounts s) + Z.of_nat k
                              < rateLimitMax (config L)))
               (seq 0 n)), s').
Proof.
  induction n as [|n IH]; intros s Hkeys Hspan.
  { eexists. reflexivity. }
  set (W := rateLimitWindow (config L)) in *.
  set (C := rateLimitMax (config L)) in *.
  pose proof (checkRateLimit_run L s) as Hrun. simpl in Hrun.
  fold W C in Hrun.
  rewrite cleanOld_id in Hrun.
  2:{ intros t c Hlook. specialize (Hkeys t c 0%nat Hlook).
      rewrite Nat.add_0_r in Hkeys. apply Hkeys. lia. }
  simpl checkRateLimitTimes. unfold bind at 1. rewrite Hrun.
  destruct (bool_decide (sumCounts (errorCounts s) >= C)) eqn:Hfull.
  - apply bool_decide_eq_true in Hfull.
    destruct (IH (with_errorCounts (errorCounts s) (tick s))) as [s' Hs'].
    + simpl. intros t c j Hlook Hj.
      rewrite <- !Nat.add_succ_r.
      apply (Hkeys t c (S j) Hlook). lia.
    + simpl. intros i j Hij.
      rewrite <- !Nat.add_succ_r.
      apply Hspan. lia.
    + exists s'. unfold bind. rewrite Hs'. simpl. unfold ret.
      f_equal. f_equal. f_equal.
      { rewrite Z.add_0_r. symmetry. apply bool_decide_eq_false. lia. }
      rewrite <- seq_shift, map_map. apply map_ext. intros k.
      rewrite !bool_decide_eq_false_2; [done|lia|lia].
  - apply bool_decide_eq_false in Hfull.
    set (now := clock s (reads s)) in *.
    destruct (IH (with_errorCounts
                    (<[now := js_or (errorCounts s !! now) 0 + 1]> (errorCounts s))
                    (tick s))) as [s' Hs'].
    + simpl. intros t c j Hlook Hj.
      rewrite <- !Nat.add_succ_r.
      destruct (decide (t = now)) as [->|Hne].
      * unfold now. replace (reads s) with (reads s + 0)%nat at 2 by lia.
        apply Hspan. lia.
      * rewrite lookup_insert_ne in Hlook by done.
        apply (Hkeys t c (S j) Hlook). lia.
    + simpl. intros i j Hij.
      rewrite <- !Nat.add_succ_r.
      apply Hspan. lia.
    + exists s'. unfold bind. rewrite Hs'. simpl. unfold ret.
      f_equal. f_equal. f_equal.
      { rewrite Z.add_0_r. symmetry. apply bool_decide_eq_true. lia. }
      rewrite sumCounts_record.
      rewrite <- seq_shift, map_map. apply map_ext. intros k.
      apply bool_decide_ext. lia.
Qed.

End RateLimiter.

(** C1 (as amended).  One call of [checkRateLimit] at time [now] answers
    [true] exactly when the total of the counts recorded at a timestamp
    of age at most [W] is below [C]; every other entry older than [W] is
    evicted; a rejected call leaves exactly the entries of age at most
    [W], an admitted call adds one to the count at [now].  Consequently
    a fresh limiter called [n] times, no call more than [W] after an
    earlier one, admits call number [k] (from 0) exactly when [k < C]:
    the first [C] calls are admitted and call [C + 1] is rejected.  An
    entry of age exactly [W] is still counted. *)
Theorem rate_limiter_sliding_window (L : Logger) :
  (∀ s,
     let now := clock s (reads s) in
     let W := rateLimitWindow (config L) in
     let C := rateLimitMax (config L) in
     let inWindow :=
       filter (fun entry : Z * Z => now - entry.1 <= W) (errorCounts s) in
     ∃ s',
       checkRateLimit L s =
         (Normal (bool_decide (countInWindow now W (errorCounts s) < C)), s')
       ∧ (∀ t, W < now - t → t ≠ now → errorCounts s' !! t = None)
       ∧ (C <= countInWindow now W (errorCounts s) → errorCounts s' = inWindow)
       ∧ (countInWindow now W (errorCounts s) < C →
          errorCounts s' = <[now := default 0 (inWindow !! now) + 1]> inWindow)
       ∧ errorHashes s' = errorHashes s
       ∧ reads s' = S (reads s)
       ∧ posts s' = posts s
       ∧ trace s' = trace s)
  ∧ (∀ s n,
       errorCounts s = ∅ →
       (∀ i j, (i < j < n)%nat →
               clock s (reads s + j) - clock s (reads s + i)
                 <= rateLimitWindow (config L)) →
       ∃ s',
         checkRateLimitTimes L n s =
           (Normal (map (fun k : nat =>
                      bool_decide (Z.of_nat k < rateLimitMax (config L)))
                    (seq 0 n)), s')).
Proof.
  split.
  - intros s. apply checkRateLimit_step.
  - intros s n Hfresh Hspan.
    destruct (checkRateLimit_burst_from L n s) as [s' Hs'].
    + intros t c j Hlook. rewrite Hfresh in Hlook. by rewrite lookup_empty in Hlook.
    + exact Hspan.
    + exists s'. rewrite Hs'. rewrite Hfresh, sumCounts_empty.
      erewrite map_ext; [reflexivity|].
      intros k. apply bool_decide_ext. simpl. lia.
Qed.

(** Three calls 10 ms apart, window 1000 ms, capacity 2: the first two
    are admitted, the third is rejected. *)
Lemma rate_limiter_sliding_window_witness :
  let L := sampleLogger 1000 2 false 300000 3 in
  let s := freshSys (fun n => 1700000000000 + 10 * Z.of_nat n) alwaysOk in
  errorCounts s = ∅
  ∧ (∀ i j, (i < j < 3)%nat →
            clock s (reads s + j) - clock s (reads s + i)
              <= rateLimitWindow (config L))
  ∧ ∃ s', checkRateLimitTimes L 3 s = (Normal [true; true; false], s').
Proof.
  intros L s.
  assert (Hfresh : errorCounts s = ∅) by reflexivity.
  assert (Hspan : ∀ i j, (i < j < 3)%nat →
            clock s (reads s + j) - clock s (reads s + i)
              <= rateLimitWindow (config L)).
  { intros i j Hij. simpl. lia. }
  split; [exact Hfresh|]. split; [exact Hspan|].
  exact (proj2 (rate_limiter_sliding_window L) s 3%nat Hfresh Hspan).
Defined.

(** C1 as stated fails at the window boundary: with window 1000 and
    capacity 1, an admission recorded at time 1700000000000 has age
    exactly 1000 at time 1700000001000, so no recorded entry has age
    strictly less than the window, and yet the call at that time is
    rejected. *)
Lemma rate_limiter_strict_age_counterexample :
  ¬ (∀ L s,
       fst (checkRateLimit L s) =
         Normal (bool_decide
                   (countYounger (clock s (reads s))
                      (rateLimitWindow (config L)) (errorCounts s)
                    < rateLimitMax (config L)))).
Proof.
  intros Hclaim.
  specialize (Hclaim (sampleLogger 1000 1 false 300000 3)
                     (mkSys {[1700000000000 := 1]} ∅
                            (fun _ => 1700000001000) 0 alwaysOk 0 [])).
  vm_compute in Hclaim. discriminate Hclaim.
Qed.

(** ** The transport and the retry driver *)

Section RetryDriver.

Implicit Types (s : Sys) (message : string) (options : SendOptions).

(** [sendMessage] issues one request and never throws: a rejection is
    logged and turned into [null]. *)
Lemma sendMessage_run message options s :
  let s1 := posted (truncateMessage message) (js_or (timeout options) 10000) s in
  sendMessage message options s =
    match network s (posts s) with
    | Resolved data => (Normal data, s1)
    | Rejected reason =>
        (Normal VNull, emit (LogSendMessageFailed (error_message reason)) s1)
    end.
Proof.
  unfold sendMessage, try_catch, bind, axios_post, ret, log, posted. simpl.
  destruct (network s (posts s)); reflexivity.
Qed.

(** One iteration of the retry loop: the handler of its [try] is never
    entered, because [sendMessage] never throws. *)
Lemma retryLoop_iteration message options retries remaining i lastError s :
  let s1 := posted (truncateMessage message) (js_or (timeout options) 10000) s in
  retryLoop message options retries (S remaining) i lastError s =
    match network s (posts s) with
    | Resolved (VData body) => (Normal (VData body), s1)
    | Resolved VNull =>
        retryLoop message options retries remaining (i + 1) lastError s1
    | Rejected reason =>
        retryLoop message options retries remaining (i + 1) lastError
          (emit (LogSendMessageFailed (error_message reason)) s1)
    end.
Proof.
  simpl. unfold bind at 1. unfold try_catch. unfold bind at 1.
  rewrite sendMessage_run.
  destruct (network s (posts s)) as [[|body]|reason]; reflexivity.
Qed.

(** The full behaviour of the loop.  It returns the body of the first
    attempt that succeeds, or [null] once [remaining] attempts have
    failed; it never throws, never sleeps, and carries [lastError]
    unchanged to the final report. *)
Lemma retryLoop_run message options retries remaining :
  ∀ i lastError s,
  ∃ v s' evs,
    retryLoop message options retries remaining i lastError s = (Normal v, s')
    ∧ sameLoggerState s s'
    ∧ trace s' = trace s ++ evs
    ∧ forallb (fun e => negb (isSleep e)) evs = true
    ∧ ((∃ k body, (k < remaining)%nat
          ∧ v = VData body
          ∧ network s (posts s + k) = Resolved (VData body)
          ∧ (∀ j, (j < k)%nat → fails (network s (posts s + j)) = true)
          ∧ posts s' = (posts s + S k)%nat)
       ∨ (v = VNull
          ∧ (∀ j, (j < remaining)%nat → fails (network s (posts s + j)) = true)
          ∧ posts s' = (posts s + remaining)%nat
          ∧ last evs =
              Some (LogRetriesExhausted retries
                      (option_map error_message lastError)))).
Proof.
  induction remaining as [|remaining IH]; intros i lastError s.
  - eexists VNull, _, [_]. split; [reflexivity|].
    split; [by repeat split|]. split; [reflexivity|].
    split; [reflexivity|]. right. repeat split; [lia|simpl; lia].
  - rewrite retryLoop_iteration.
    destruct (network s (posts s)) as [[|body]|reason] eqn:Hnet.
    + destruct (IH (i + 1) lastError
                  (posted (truncateMessage message)
                          (js_or (timeout options) 10000) s))
        as (v & s' & evs & Hrun & Hsame & Htrace & Hquiet & Hcases).
      exists v, s', (Post (truncateMessage message)
                       (js_or (timeout options) 10000) :: evs).
      split; [exact Hrun|]. split; [exact Hsame|].
      split; [rewrite Htrace; simpl; by rewrite <- app_assoc|].
      split; [exact Hquiet|].
      simpl in Hcases.
      destruct Hcases as [(k & body & Hk & Hv & Hok & Hbefore & Hposts)
                         |(Hv & Hall & Hposts & Hlast)].
      * left. exists (S k), body. repeat split; [lia|done| | |lia].
        { by rewrite Nat.add_succ_r. }
        { intros [|j] Hj; [by rewrite Nat.add_0_r, Hnet|].
          rewrite Nat.add_succ_r. apply Hbefore. lia. }
      * right. repeat split; [done| |lia|].
        { intros [|j] Hj; [by rewrite Nat.add_0_r, Hnet|].
          rewrite Nat.add_succ_r. apply Hall. lia. }
        { destruct evs; [discriminate Hlast|exact Hlast]. }
    + eexists (VData body), _, [_]. split; [reflexivity|].
      split; [by repeat split|]. split; [reflexivity|].
      split; [reflexivity|]. left. exists 0%nat, body.
      repeat split; [lia| |lia|simpl; lia].
      by rewrite Nat.add_0_r.
    + destruct (IH (i + 1) lastError
                  (emit (LogSendMessageFailed (error_message reason))
                     (posted (truncateMessage message)
                             (js_or (timeout options) 10000) s)))
        as (v & s' & evs & Hrun & Hsame & Htrace & Hquiet & Hcases).
      exists v, s', (Post (truncateMessage message)
                       (js_or (timeout options) 10000)
                     :: LogSendMessageFailed (error_message reason) :: evs).
      split; [exact Hrun|]. split; [exact Hsame|].
      split; [rewrite Htrace; simpl; by rewrite <- !app_assoc|].
      split; [exact Hquiet|].
      simpl in Hcases.
      destruct Hcases as [(k & body & Hk & Hv & Hok & Hbefore & Hposts)
                         |(Hv & Hall & Hposts & Hlast)].
      * left. exists (S k), body. repeat split; [lia|done| | |lia].
        { by rewrite Nat.add_succ_r. }
        { intros [|j] Hj; [by rewrite Nat.add_0_r, Hnet|].
          rewrite Nat.add_succ_r. apply Hbefore. lia. }
      * right. repeat split; [done| |lia|].
        { intros [|j] Hj; [by rewrite Nat.add_0_r, Hnet|].
          rewrite Nat.add_succ_r. apply Hall. lia. }
        { destruct evs; [discriminate Hlast|exact Hlast]. }
Qed.

(** The retry driver never throws and never waits, whatever the
    transport does: the [catch] block that holds the backoff is guarded
    by a call that cannot throw. *)
Lemma sendMessageWithRetry_never_sleeps message options retries s :
  ∃ v s' evs,
    sendMessageWithRetry message options retries s = (Normal v, s')
    ∧ sameLoggerState s s'
    ∧ trace s' = trace s ++ evs
    ∧ forallb (fun e => negb (isSleep e)) evs = true
    ∧ (posts s <= posts s' <= posts s + Z.to_nat retries)%nat.
Proof.
  destruct (retryLoop_run message options retries (Z.to_nat retries) 0 None s)
    as (v & s' & evs & Hrun & Hsame & Htrace & Hquiet & Hcases).
  exists v, s', evs.
  split; [exact Hrun|]. split; [exact Hsame|]. split; [exact Htrace|].
  split; [exact Hquiet|].
  unfold sendMessageWithRetry in Hrun.
  destruct Hcases as [(k & body & Hk & _ & _ & _ & Hposts)|(_ & _ & Hposts & _)];
    rewrite Hposts; lia.
Qed.

(** C2 (code defect).  With [retries = 3] and a transport that fails
    twice and then succeeds, [sendMessageWithRetry] returns the success
    result after exactly three requests, but the three requests follow
    each other with no wait at all: the trace holds no [Sleep], neither
    the 1000 ms nor the 2000 ms one. *)
Theorem retry_fail_twice_then_ok_no_backoff :
  let s := freshSys (fun _ => 1700000000000) failTwiceThenOk in
  let run := sendMessageWithRetry "hello" noOptions 3 s in
  run.1 = Normal (VData "ok")
  ∧ posts run.2 = 3%nat
  ∧ trace run.2 =
      [Post "hello" 10000; LogSendMessageFailed "Network error";
       Post "hello" 10000; LogSendMessageFailed "Network error";
       Post "hello" 10000]
  ∧ List.filter isSleep (trace run.2) = []
  ∧ ¬ In (Sleep 1000) (trace run.2)
  ∧ ¬ In (Sleep 2000) (trace run.2).
Proof.
  vm_compute. repeat split; try reflexivity; intros H;
    repeat (destruct H as [H|H]; [discriminate H|]); exact H.
Qed.

(** When the next [Z.to_nat retries] attempts all fail, the driver
    issues exactly that many requests and returns [null]. *)
Lemma sendMessageWithRetry_all_fail message options retries s :
  (∀ j, (j < Z.to_nat retries)%nat → fails (network s (posts s + j)) = true) →
  ∃ s',
    sendMessageWithRetry message options retries s = (Normal VNull, s')
    ∧ posts s' = (posts s + Z.to_nat retries)%nat
    ∧ sameLoggerState s s'.
Proof.
  intros Hfail.
  destruct (retryLoop_run message options retries (Z.to_nat retries) 0 None s)
    as (v & s' & evs & Hrun & Hsame & Htrace & Hquiet & Hcases).
  destruct Hcases as [(k & body & Hk & _ & Hok & _ & _)|(-> & _ & Hposts & _)].
  - specialize (Hfail k Hk). rewrite Hok in Hfail. discriminate Hfail.
  - exists s'. split; [exact Hrun|]. split; [exact Hposts|exact Hsame].
Qed.

(** C5 (as amended).  Against a transport whose next [Z.to_nat retries]
    attempts all fail, [sendMessageWithRetry] issues exactly that many
    requests, then returns [null], and does not throw; the limiter and
    the deduplicator are untouched. *)
Theorem retry_exhausted_returns_null message options retries s :
  (∀ j, (j < Z.to_nat retries)%nat → fails (network s (posts s + j)) = true) →
  ∃ s',
    sendMessageWithRetry message options retries s = (Normal VNull, s')
    ∧ posts s' = (posts s + Z.to_nat retries)%nat
    ∧ sameLoggerState s s'.
Proof. apply sendMessageWithRetry_all_fail. Qed.

(** Three attempts against a transport that always rejects. *)
Lemma retry_exhausted_returns_null_witness :
  let s := freshSys (fun _ => 1700000000000) alwaysRejects in
  (∀ j, (j < Z.to_nat 3)%nat → fails (network s (posts s + j)) = true)
  ∧ ∃ s',
      sendMessageWithRetry "hello" noOptions 3 s = (Normal VNull, s')
      ∧ posts s' = (posts s + Z.to_nat 3)%nat
      ∧ sameLoggerState s s'.
Proof.
  intros s.
  assert (Hfail : ∀ j, (j < Z.to_nat 3)%nat →
                       fails (network s (posts s + j)) = true).
  { intros j _. reflexivity. }
  split; [exact Hfail|].
  exact (retry_exhausted_returns_null "hello" noOptions 3 s Hfail).
Defined.

(** C5 as stated fails: after three attempts that were each rejected
    with "Network error", the returned value is [null] and the final
    report carries no cause at all ([lastError] was never assigned). *)
Lemma retry_exhausted_carries_no_cause :
  let s := freshSys (fun _ => 1700000000000) alwaysRejects in
  let run := sendMessageWithRetry "hello" noOptions 3 s in
  network s 2 = Rejected (mkError "Error" "Network error")
  ∧ run.1 = Normal VNull
  ∧ last (trace run.2) = Some (LogRetriesExhausted 3 None)
  ∧ ¬ In (LogRetriesExhausted 3 (Some "Network error")) (trace run.2).
Proof.
  vm_compute. repeat split; try reflexivity. intros H.
  repeat (destruct H as [H|H]; [discriminate H|]). exact H.
Qed.

End RetryDriver.

(** ** Truncation *)

Section Truncation.

Local Open Scope nat_scope.
Local Open Scope string_scope.

Lemma string_length_append (a b : string) :
  String.length (a ++ b) = String.length a + String.length b.
Proof. induction a as [|c a IH]; simpl; [done|by rewrite IH]. Qed.

(** [s.substring(0, n)] with [n] within the string: a prefix of [s] of
    length [n]. *)
Lemma substring_prefix (n : nat) : ∀ s : string,
  n <= String.length s →
  String.length (String.substring 0 n s) = n
  ∧ ∃ rest, s = String.substring 0 n s ++ rest.
Proof.
  induction n as [|n IH]; intros s Hlen.
  - destruct s; simpl; (split; [done|]); eexists; reflexivity.
  - destruct s as [|c s]; simpl in *; [lia|].
    destruct (IH s) as [Hl [rest Hrest]]; [lia|].
    split; [by rewrite Hl|]. exists rest.
    change (String c s = String c (String.substring 0 n s ++ rest)).
    f_equal. exact Hrest.
Qed.

Lemma truncationNotice_length : String.length truncationNotice = 25.
Proof. reflexivity. Qed.

Lemma truncate_long (maxLen : nat) (notice message : string) :
  String.length notice <= maxLen →
  maxLen < String.length message →
  let kept := String.substring 0 (maxLen - String.length notice) message in
  String.length (kept ++ notice) = maxLen
  ∧ ∃ rest, message = kept ++ rest.
Proof.
  intros Hnotice Hlong kept.
  destruct (substring_prefix (maxLen - String.length notice) message)
    as [Hl Hrest]; [lia|].
  split; [|exact Hrest].
  rewrite string_length_append. fold kept in Hl. rewrite Hl. lia.
Qed.

(** C8.  A message of length at most 4096 is returned unchanged.  A
    longer one becomes a prefix of the message followed by the
    truncation notice, and the result is no longer than 4096 (it is
    exactly 4096 long). *)
Theorem truncateMessage_spec (message : string) :
  (String.length message <= maxMessageLength →
   truncateMessage message = message)
  ∧ (maxMessageLength < String.length message →
     ∃ kept rest,
       message = kept ++ rest
       ∧ truncateMessage message = kept ++ truncationNotice
       ∧ String.length (truncateMessage message) <= maxMessageLength
       ∧ String.length (truncateMessage message) = maxMessageLength).
Proof.
  unfold truncateMessage.
  destruct (Nat.leb_spec (String.length message) maxMessageLength) as [Hle|Hgt].
  - split; [done|]. intros Hlong. lia.
  - split; [intros Hshort; lia|]. intros _.
    destruct (truncate_long maxMessageLength truncationNotice message)
      as [Hlen [rest Hrest]]; [|exact Hgt|].
    { rewrite truncationNotice_length. apply Nat.leb_le. reflexivity. }
    eexists _, rest. split; [exact Hrest|]. split; [reflexivity|].
    rewrite Hlen. split; [apply Nat.le_refl|reflexivity].
Qed.

(** A short message and one of 5000 characters. *)
Lemma truncateMessage_spec_witness :
  (String.length "hello" <= maxMessageLength
   ∧ truncateMessage "hello" = "hello")
  ∧ (maxMessageLength < String.length (longMessage 5000)
     ∧ ∃ kept rest,
         longMessage 5000 = kept ++ rest
         ∧ truncateMessage (longMessage 5000) = kept ++ truncationNotice
         ∧ String.length (truncateMessage (longMessage 5000)) <= maxMessageLength
         ∧ String.length (truncateMessage (longMessage 5000)) = maxMessageLength).
Proof.
  assert (Hshort : String.length "hello" <= maxMessageLength).
  { apply Nat.leb_le. reflexivity. }
  assert (Hlong : maxMessageLength < String.length (longMessage 5000)).
  { apply Nat.ltb_lt. vm_compute. reflexivity. }
  split.
  - split; [exact Hshort|].
    exact (proj1 (truncateMessage_spec "hello") Hshort).
  - split; [exact Hlong|].
    exact (proj2 (truncateMessage_spec (longMessage 5000)) Hlong).
Defined.

End Truncation.

(** ** The deduplicator *)

Section Deduplicator.

Implicit Types (s : Sys) (L : Logger) (h : string).

Lemma isDuplicate_run L h s :
  isDuplicate L h s =
    match errorHashes s !! h with
    | None => (Normal false, s)
    | Some lastSeen =>
        if lastSeen =? 0 then (Normal false, s)
        else (Normal (clock s (reads s) - lastSeen <? deduplicateWindow (config L)),
              tick s)
    end.
Proof.
  unfold isDuplicate, bind, get_errorHashes. simpl.
  destruct (errorHashes s !! h) as [lastSeen|]; [|reflexivity].
  destruct (lastSeen =? 0); reflexivity.
Qed.

(** The block on a recorded, non-zero stamp [t1]. *)
Lemma checkDeduplication_recorded L error context s t1 :
  errorHashes s !! getErrorHash error context = Some t1 →
  t1 ≠ 0 →
  checkDeduplication L error context s =
    if clock s (reads s) - t1 <? deduplicateWindow (config L)
    then (Normal false, emit WarnDuplicate (tick s))
    else (Normal true,
          with_errorHashes
            (<[getErrorHash error context := clock s (S (reads s))]>
               (errorHashes s))
            (tick (tick s))).
Proof.
  intros Hrec Hstamp.
  unfold checkDeduplication, bind. rewrite isDuplicate_run, Hrec.
  destruct (Z.eqb_spec t1 0) as [?|_]; [done|].
  destruct (clock s (reads s) - t1 <? deduplicateWindow (config L)); reflexivity.
Qed.

(** An identity whose record carries the non-zero stamp [t1] is
    submitted again, and the deduplicator reads the clock at [t2].  When
    [t2 - t1] is strictly less than [deduplicateWindow] the submission
    is suppressed and the record keeps [t1]; when the gap is at least
    [deduplicateWindow] it is admitted and the record is overwritten
    with the clock reading taken at that moment. *)
Lemma checkDeduplication_second_submission L error context s t1 :
  let h := getErrorHash error context in
  let t2 := clock s (reads s) in
  let W := deduplicateWindow (config L) in
  errorHashes s !! h = Some t1 →
  t1 ≠ 0 →
  (t2 - t1 < W →
   ∃ s',
     checkDeduplication L error context s = (Normal false, s')
     ∧ errorHashes s' = errorHashes s
     ∧ errorHashes s' !! h = Some t1
     ∧ errorCounts s' = errorCounts s
     ∧ posts s' = posts s)
  ∧ (W <= t2 - t1 →
     ∃ s',
       checkDeduplication L error context s = (Normal true, s')
       ∧ errorHashes s' = <[h := clock s (S (reads s))]> (errorHashes s)
       ∧ errorHashes s' !! h = Some (clock s (S (reads s)))
       ∧ errorCounts s' = errorCounts s
       ∧ posts s' = posts s).
Proof.
  intros h t2 W Hrec Hstamp.
  pose proof (checkDeduplication_recorded L error context s t1 Hrec Hstamp) as Hrun.
  fold h t2 W in Hrun.
  split; intros Hgap.
  - destruct (Z.ltb_spec (t2 - t1) W) as [_|?]; [|lia].
    eexists. split; [exact Hrun|]. simpl. by repeat split.
  - destruct (Z.ltb_spec (t2 - t1) W) as [?|_]; [lia|].
    eexists. split; [exact Hrun|]. simpl.
    repeat split; try done. apply lookup_insert_eq.
Qed.

(** A record stamped 0 is taken for a missing one: the submission is
    admitted whatever the clock reads, and the record is overwritten. *)
Lemma checkDeduplication_zero_stamp L error context s :
  errorHashes s !! getErrorHash error context = Some 0 →
  checkDeduplication L error context s =
    (Normal true,
     with_errorHashes
       (<[getErrorHash error context := clock s (reads s)]> (errorHashes s))
       (tick s)).
Proof.
  intros Hrec. unfold checkDeduplication, bind. rewrite isDuplicate_run, Hrec.
  reflexivity.
Qed.


End Deduplicator.

(** ** The governor *)

Section Governor.

Implicit Types (s : Sys) (L : Logger).

(** [sendError] when the filter answers a falsy value. *)
Lemma sendError_filtered L error context s :
  filterVerdict L error context = Normal false →
  sendError L error context s = (Normal VNull, s).
Proof.
  unfold filterVerdict, sendError, try_catch, bind, call, ret.
  destruct (errorFilter (config L)) as [filter_fn|]; [|discriminate].
  intros ->. reflexivity.
Qed.

(** [sendError] when the filter throws. *)
Lemma sendError_filter_throws L error context s exn :
  filterVerdict L error context = Throw exn →
  sendError L error context s =
    (Normal VNull, emit (LogSendErrorFailed (error_message exn)) s).
Proof.
  unfold filterVerdict, sendError, try_catch, bind, call, ret.
  destruct (errorFilter (config L)) as [filter_fn|]; [|discriminate].
  intros ->. reflexivity.
Qed.

(** [sendError] when the filter lets the event pass: the rate limiter
    is consulted next. *)
Lemma sendError_passed L error context s :
  filterVerdict L error context = Normal true →
  sendError L error context s =
    try_catch
      (withinLimit <- checkRateLimit L ;;
       if negb withinLimit then
         log WarnRateLimit ;;;
         ret VNull
       else if deduplicate (config L) then
         fresh <- checkDeduplication L error context ;;
         if fresh then deliverError L error context else ret VNull
       else deliverError L error context)
      (fun err =>
         log (LogSendErrorFailed (error_message err)) ;;;
         ret VNull)
      s.
Proof.
  unfold filterVerdict, sendError, try_catch. unfold bind at 1. unfold call, ret.
  destruct (errorFilter (config L)) as [filter_fn|].
  - intros ->. reflexivity.
  - intros _. reflexivity.
Qed.

(** The delivery tail under the [catch] of an entry point: it ends
    normally, leaves the limiter and the deduplicator alone, and hands
    back [null] or a body the transport answered. *)
Lemma delivery_run (formatted : completion string) retries
    (report : string → event) s :
  ∃ v s',
    try_catch
      (formattedMessage <- call formatted ;;
       sendMessageWithRetry formattedMessage noOptions retries)
      (fun err => log (report (error_message err)) ;;; ret VNull) s
      = (Normal v, s')
    ∧ sameLoggerState s s'
    ∧ (posts s <= posts s')%nat
    ∧ (v = VNull ∨ ∃ n, network s n = Resolved v).
Proof.
  unfold try_catch, bind at 1, call.
  destruct formatted as [text|exn].
  - destruct (retryLoop_run text noOptions retries (Z.to_nat retries) 0 None s)
      as (v & s' & evs & Hrun & Hsame & Htrace & Hquiet & Hcases).
    unfold sendMessageWithRetry. rewrite Hrun.
    exists v, s'. split; [done|]. split; [done|].
    destruct Hcases as [(k & body & Hk & -> & Hok & _ & Hposts)
                       |(-> & _ & Hposts & _)].
    + split; [lia|]. right. by exists (posts s + k)%nat.
    + split; [lia|]. by left.
  - eexists VNull, _. split; [reflexivity|].
    split; [by repeat split|]. split; [simpl; lia|by left].
Qed.

Lemma try_catch_bind_normal {A B} (m : M A) (k : A → M B) (h : JsError → M B)
    s a s1 :
  m s = (Normal a, s1) →
  try_catch (x <- m ;; k x) h s = try_catch (k a) h s1.
Proof. intros Hm. unfold try_catch, bind. by rewrite Hm. Qed.

(** The deduplication block ends normally and touches neither the
    limiter nor the transport. *)
Lemma checkDeduplication_total L error context s :
  ∃ fresh s',
    checkDeduplication L error context s = (Normal fresh, s')
    ∧ errorCounts s' = errorCounts s
    ∧ network s' = network s
    ∧ clock s' = clock s
    ∧ posts s' = posts s.
Proof.
  unfold checkDeduplication, bind. rewrite isDuplicate_run.
  destruct (errorHashes s !! getErrorHash error context) as [lastSeen|].
  - destruct (lastSeen =? 0); [by eexists _, _|].
    destruct (clock s (reads s) - lastSeen <? deduplicateWindow (config L));
      by eexists _, _.
  - by eexists _, _.
Qed.

(** The state in which [sendError] reaches its delivery tail, or the
    fact that it stopped before: in both cases nothing was posted. *)
Lemma sendError_stages L error context s :
  (∃ s', sendError L error context s = (Normal VNull, s')
         ∧ posts s' = posts s
         ∧ network s' = network s)
  ∨ (∃ s_adm,
       sendError L error context s =
         try_catch (deliverError L error context)
           (fun err => log (LogSendErrorFailed (error_message err)) ;;; ret VNull)
           s_adm
       ∧ posts s_adm = posts s
       ∧ network s_adm = network s).
Proof.
  destruct (filterVerdict L error context) as [[|]|exn] eqn:Hfilter.
  - rewrite (sendError_passed _ _ _ _ Hfilter).
    pose proof (checkRateLimit_run L s) as Hrate. simpl in Hrate.
    destruct (bool_decide _) in Hrate.
    { left. eexists. rewrite (try_catch_bind_normal _ _ _ _ _ _ Hrate).
      by repeat split. }
    rewrite (try_catch_bind_normal _ _ _ _ _ _ Hrate). simpl negb. cbv iota.
    destruct (deduplicate (config L)).
    + destruct (checkDeduplication_total L error context
                  (with_errorCounts
                     (<[clock s (reads s) :=
                          js_or (cleanOld (clock s (reads s)
                                           - rateLimitWindow (config L))
                                   (errorCounts s) !! clock s (reads s)) 0 + 1]>
                        (cleanOld (clock s (reads s)
                                   - rateLimitWindow (config L)) (errorCounts s)))
                     (tick s)))
        as (fresh & s_d & Hdedup & _ & Hnet & _ & Hposts).
      rewrite (try_catch_bind_normal _ _ _ _ _ _ Hdedup).
      destruct fresh.
      * right. exists s_d. by repeat split.
      * left. exists s_d. by repeat split.
    + right. eexists. by repeat split.
  - left. exists s. by rewrite (sendError_filtered _ _ _ _ Hfilter).
  - left. eexists. by rewrite (sendError_filter_throws _ _ _ _ _ Hfilter).
Qed.


Lemma sendCustomMessage_total L message options s :
  ∃ v s',
    sendCustomMessage L message options s = (Normal v, s')
    ∧ sameLoggerState s s'
    ∧ (v = VNull ∨ ∃ n, network s n = Resolved v).
Proof.
  destruct (delivery_run (messageFormatter_format L message options)
              (retryAttempts (config L)) LogCustomFailed s)
    as (v & s' & Hdel & Hsame & _ & Hv).
  by exists v, s'.
Qed.

Lemma sendRawMessage_total L message options s :
  ∃ v s',
    sendRawMessage L message options s = (Normal v, s')
    ∧ sameLoggerState s s'
    ∧ (v = VNull ∨ ∃ n, network s n = Resolved v).
Proof.
  unfold sendRawMessage, try_catch. rewrite sendMessage_run.
  destruct (network s (posts s)) as [data|reason] eqn:Hnet.
  - eexists data, _. split; [reflexivity|]. split; [by repeat split|].
    right. by exists (posts s).
  - eexists VNull, _. split; [reflexivity|]. split; [by repeat split|by left].
Qed.


(** C6.  When the configured [errorFilter] answers [false], [sendError]
    returns [null] and the whole state is left as it was: no rate-limit
    slot, no dedup record, no clock reading, no request, no log line.
    Hence any call that follows behaves as if the filtered call had not
    been made. *)
Theorem filtered_event_is_free L error context filter_fn s :
  errorFilter (config L) = Some filter_fn →
  filter_fn error context = Normal false →
  sendError L error context s = (Normal VNull, s)
  ∧ ∀ error' context',
      (sendError L error context ;;; sendError L error' context') s
      = sendError L error' context' s.
Proof.
  intros Hcfg Hfalse.
  assert (Hrun : sendError L error context s = (Normal VNull, s)).
  { apply sendError_filtered. unfold filterVerdict. by rewrite Hcfg. }
  split; [exact Hrun|].
  intros error' context'. unfold bind. by rewrite Hrun.
Qed.

(** A client error is filtered out; the server error that follows is
    delivered under [rateLimitMax = 1]. *)
Lemma filtered_event_is_free_witness :
  let L := withErrorFilter (Some serverErrorsOnly)
             (sampleLogger 1000 1 true 5000 3) in
  let s := freshSys (fun _ => 1700000000000) alwaysOk in
  let clientError := mkError "ClientError" "bad request" in
  let serverError := mkError "ServerError" "boom" in
  (sendError L clientError sampleContext s = (Normal VNull, s)
   ∧ ∀ error' context',
       (sendError L clientError sampleContext ;;; sendError L error' context') s
       = sendError L error' context' s)
  ∧ ((sendError L clientError sampleContext ;;;
      sendError L serverError sampleContext) s).1 = Normal (VData "ok").
Proof.
  intros L s clientError serverError.
  split.
  - exact (filtered_event_is_free L clientError sampleContext serverErrorsOnly s
             eq_refl eq_refl).
  - vm_compute. reflexivity.
Defined.









(** An event whose identity has a live record is suppressed: [sendError]
    returns [null] and sends nothing, whatever the filter and the rate
    limiter decide. *)
Lemma sendError_duplicate_suppressed L error context s t1 :
  deduplicate (config L) = true →
  errorHashes s !! getErrorHash error context = Some t1 →
  t1 ≠ 0 →
  clock s (S (reads s)) - t1 < deduplicateWindow (config L) →
  ∃ s',
    sendError L error context s = (Normal VNull, s')
    ∧ posts s' = posts s
    ∧ errorHashes s' = errorHashes s.
Proof.
  intros Hdedup Hrec Hstamp Hgap.
  destruct (filterVerdict L error context) as [[|]|exn] eqn:Hfilter.
  - rewrite (sendError_passed _ _ _ _ Hfilter).
    pose proof (checkRateLimit_run L s) as Hrate. simpl in Hrate.
    destruct (bool_decide _) in Hrate;
      rewrite (try_catch_bind_normal _ _ _ _ _ _ Hrate).
    { eexists. by repeat split. }
    simpl negb. cbv iota. rewrite Hdedup.
    erewrite try_catch_bind_normal.
    2:{ rewrite (checkDeduplication_recorded L error context _ t1);
          [|exact Hrec|exact Hstamp].
        simpl. destruct (Z.ltb_spec (clock s (S (reads s)) - t1)
                           (deduplicateWindow (config L))); [reflexivity|lia]. }
    eexists. by repeat split.
  - exists s. by rewrite (sendError_filtered _ _ _ _ Hfilter).
  - eexists. by rewrite (sendError_filter_throws _ _ _ _ _ Hfilter).
Qed.

(** The delivery tail of [sendError] when every attempt fails. *)
Lemma deliverError_all_fail L error context s :
  (∀ j, (j < Z.to_nat (retryAttempts (config L)))%nat →
        fails (network s (posts s + j)) = true) →
  ∃ s',
    try_catch (deliverError L error context)
      (fun err => log (LogSendErrorFailed (error_message err)) ;;; ret VNull) s
      = (Normal VNull, s')
    ∧ sameLoggerState s s'.
Proof.
  intros Hfail. unfold deliverError, try_catch. unfold bind at 1. unfold call.
  destruct (errorFormatter_format L error context) as [text|exn].
  - destruct (sendMessageWithRetry_all_fail text noOptions
                (retryAttempts (config L)) s Hfail) as (s' & Hrun & _ & Hsame).
    rewrite Hrun. by exists s'.
  - eexists. split; [reflexivity|by repeat split].
Qed.

(** An admitted event whose delivery fails.  The rate-limit slot and
    the dedup record are in place in the state [s_adm] from which the
    delivery tail starts, nothing having been sent before; the failed
    delivery returns [null] and keeps both maps; and an event of the
    same identity that arrives while the record, stamped [t_rec] with
    [t_rec] not 0, is younger than [deduplicateWindow] is suppressed. *)
Lemma sendError_failed_delivery L error context s :
  let now := clock s (reads s) in
  let W := rateLimitWindow (config L) in
  let inWindow :=
    filter (fun entry : Z * Z => now - entry.1 <= W) (errorCounts s) in
  let h := getErrorHash error context in
  deduplicate (config L) = true →
  filterVerdict L error context = Normal true →
  countInWindow now W (errorCounts s) < rateLimitMax (config L) →
  notDuplicate L error context s →
  (∀ j, (j < Z.to_nat (retryAttempts (config L)))%nat →
        fails (network s (posts s + j)) = true) →
  ∃ s_adm s' t_rec,
    sendError L error context s =
      try_catch (deliverError L error context)
        (fun err => log (LogSendErrorFailed (error_message err)) ;;; ret VNull)
        s_adm
    ∧ posts s_adm = posts s
    ∧ trace s_adm = trace s
    ∧ errorCounts s_adm = <[now := default 0 (inWindow !! now) + 1]> inWindow
    ∧ errorHashes s_adm = <[h := t_rec]> (errorHashes s)
    ∧ t_rec = clock s (pred (reads s_adm))
    ∧ sendError L error context s = (Normal VNull, s')
    ∧ errorCounts s' = errorCounts s_adm
    ∧ errorHashes s' = errorHashes s_adm
    ∧ (∀ error2 context2,
         getErrorHash error2 context2 = h →
         t_rec ≠ 0 →
         clock s (S (reads s')) - t_rec < deduplicateWindow (config L) →
         ∃ s'',
           sendError L error2 context2 s' = (Normal VNull, s'')
           ∧ posts s'' = posts s').
Proof.
  intros now W inWindow h Hdedup Hfilter Hrate Hfresh Hfail.
  rewrite (sendError_passed _ _ _ _ Hfilter).
  pose proof (checkRateLimit_run L s) as Hrun. simpl in Hrun.
  fold now W in Hrun. rewrite cleanOld_window in Hrun. fold inWindow in Hrun.
  unfold countInWindow in Hrate. fold inWindow in Hrate.
  rewrite bool_decide_eq_false_2 in Hrun by lia.
  rewrite js_or_zero in Hrun.
  rewrite (try_catch_bind_normal _ _ _ _ _ _ Hrun).
  simpl negb. cbv iota. rewrite Hdedup.
  set (s_r := with_errorCounts
                (<[now := default 0 (inWindow !! now) + 1]> inWindow) (tick s)).
  assert (Hblock : ∃ s_adm t_rec,
            checkDeduplication L error context s_r = (Normal true, s_adm)
            ∧ posts s_adm = posts s
            ∧ trace s_adm = trace s
            ∧ errorCounts s_adm = <[now := default 0 (inWindow !! now) + 1]> inWindow
            ∧ errorHashes s_adm = <[h := t_rec]> (errorHashes s)
            ∧ t_rec = clock s (pred (reads s_adm))
            ∧ network s_adm = network s
            ∧ clock s_adm = clock s).
  { unfold notDuplicate in Hfresh. fold h in Hfresh.
    destruct (errorHashes s !! h) as [lastSeen|] eqn:Hrec.
    - destruct (decide (lastSeen = 0)) as [->|Hstamp].
      + rewrite (checkDeduplication_zero_stamp L error context s_r Hrec).
        eexists _, _. by repeat split.
      + destruct Hfresh as [?|Hold]; [done|].
        rewrite (checkDeduplication_recorded L error context s_r lastSeen Hrec Hstamp).
        simpl. destruct (Z.ltb_spec (clock s (S (reads s)) - lastSeen)
                           (deduplicateWindow (config L))); [lia|].
        eexists _, _. by repeat split.
    - unfold checkDeduplication, bind. rewrite isDuplicate_run.
      simpl. fold h. rewrite Hrec. eexists _, _. by repeat split. }
  destruct Hblock as (s_adm & t_rec & Hblock & Hposts & Htrace & Hcounts
                      & Hhashes & Ht & Hnet & Hclock).
  rewrite (try_catch_bind_normal _ _ _ _ _ _ Hblock). cbv iota.
  destruct (deliverError_all_fail L error context s_adm)
    as (s' & Hdeliver & Hc' & Hh' & Hk' & Hr' & Hn').
  { intros j Hj. rewrite Hnet, Hposts. by apply Hfail. }
  exists s_adm, s', t_rec.
  repeat split; try done.
  intros error2 context2 Hsame Hstamp Hgap.
  destruct (sendError_duplicate_suppressed L error2 context2 s' t_rec Hdedup)
    as (s'' & Hsecond & Hposts'' & _); [|exact Hstamp| |by exists s''].
  - rewrite Hsame, Hh', Hhashes. apply lookup_insert_eq.
  - by rewrite Hk', Hclock.
Qed.

(** Two identical events 100 ms apart on a running clock, dedup window
    5000 ms, transport down: the first is admitted and fails, the second
    is suppressed. *)
Lemma sendError_failed_delivery_example :
  let L := sampleLogger 60000 10 true 5000 3 in
  let s := freshSys (fun n => 1700000000000 + 25 * Z.of_nat n) alwaysRejects in
  ∃ s',
    sendError L sampleError sampleContext s = (Normal VNull, s')
    ∧ posts s' = 3%nat
    ∧ errorCounts s' = {[1700000000000 := 1]}
    ∧ errorHashes s' !! getErrorHash sampleError sampleContext
      = Some 1700000000025
    ∧ ∃ s'',
        sendError L sampleError sampleContext s' = (Normal VNull, s'')
        ∧ posts s'' = posts s'.
Proof.
  intros L s.
  destruct (sendError_failed_delivery L sampleError sampleContext s)
    as (s_adm & s' & t_rec & Hsplit & Hposts & Htrace & Hcounts & Hhashes & Ht
        & Hrun & Hc' & Hh' & Hnext); try reflexivity.
  exists s'. split; [exact Hrun|].
  assert (Hs' : s' = (sendError L sampleError sampleContext s).2)
    by (by rewrite Hrun).
  split; [rewrite Hs'; vm_compute; reflexivity|].
  split; [rewrite Hs'; vm_compute; reflexivity|].
  split; [rewrite Hs'; vm_compute; reflexivity|].
  apply Hnext; [reflexivity| |].
  - assert (Hrec : t_rec = 1700000000025).
    { rewrite Ht.
      assert (Hadm : errorHashes s' = errorHashes s_adm) by exact Hh'.
      assert (Hlook : errorHashes s' !! getErrorHash sampleError sampleContext
                      = Some t_rec).
      { rewrite Hadm, Hhashes. apply lookup_insert_eq. }
      rewrite Hs' in Hlook. vm_compute in Hlook. injection Hlook as <-.
      by rewrite <- Ht. }
    rewrite Hrec. lia.
  - assert (Hrec : t_rec = 1700000000025).
    { assert (Hlook : errorHashes s' !! getErrorHash sampleError sampleContext
                      = Some t_rec).
      { rewrite Hh', Hhashes. apply lookup_insert_eq. }
      rewrite Hs' in Hlook. vm_compute in Hlook. by injection Hlook as <-. }
    rewrite Hrec, Hs'. vm_compute. reflexivity.
Defined.


End Governor.

(** ** The limiter over time: invariants, recovery, the sweep *)

Section LimiterOverTime.

Implicit Types (m : gmap Z Z) (s : Sys) (L : Logger).

Lemma sumCounts_filter_le (P : Z * Z → Prop) `{!∀ x, Decision (P x)} m :
  (∀ t c, m !! t = Some c → 0 <= c) →
  sumCounts (filter P m) <= sumCounts m.
Proof.
  induction m as [|t c m Hfresh IH] using map_ind; intros Hpos.
  - by rewrite map_filter_empty.
  - assert (Hc : 0 <= c) by (apply (Hpos t); apply lookup_insert_eq).
    assert (Hm : ∀ t' c', m !! t' = Some c' → 0 <= c').
    { intros t' c' Hlook. apply (Hpos t').
      rewrite lookup_insert_ne; [done|]. intros ->. congruence. }
    specialize (IH Hm).
    rewrite sumCounts_insert_fresh by done.
    rewrite map_filter_insert. destruct (decide (P (t, c))).
    + rewrite sumCounts_insert_fresh; [lia|].
      apply map_lookup_filter_None_2. by left.
    + rewrite delete_id by done. lia.
Qed.

Lemma countsPositive_cleanOld windowStart m :
  countsPositive m → countsPositive (cleanOld windowStart m).
Proof.
  intros Hpos t c Hlook. apply (Hpos t).
  unfold cleanOld in Hlook. by apply map_lookup_filter_Some in Hlook as [? _].
Qed.

(** One call keeps the counts positive and the total under the larger
    of the capacity and the total it found. *)
Lemma checkRateLimit_invariant L s bound :
  countsPositive (errorCounts s) →
  sumCounts (errorCounts s) <= bound →
  rateLimitMax (config L) <= bound →
  countsPositive (errorCounts (checkRateLimit L s).2)
  ∧ sumCounts (errorCounts (checkRateLimit L s).2) <= bound.
Proof.
  intros Hpos Hsum Hcap.
  pose proof (checkRateLimit_run L s) as Hrun. simpl in Hrun.
  set (now := clock s (reads s)) in *.
  set (kept := cleanOld (now - rateLimitWindow (config L)) (errorCounts s)) in *.
  assert (Hkept : countsPositive kept) by by apply countsPositive_cleanOld.
  assert (Hle : sumCounts kept <= sumCounts (errorCounts s)).
  { apply sumCounts_filter_le. intros t c Hlook. specialize (Hpos t c Hlook). lia. }
  destruct (bool_decide (sumCounts kept >= rateLimitMax (config L))) eqn:Hfull;
    rewrite Hrun; simpl.
  - split; [exact Hkept|lia].
  - apply bool_decide_eq_false in Hfull. split.
    + intros t c. destruct (decide (t = now)) as [->|Hne].
      * rewrite lookup_insert_eq. intros [= <-]. rewrite js_or_zero.
        destruct (kept !! now) as [c0|] eqn:Hc0; simpl; [|lia].
        specialize (Hkept now c0 Hc0). lia.
      * rewrite lookup_insert_ne by done. apply Hkept.
    + rewrite sumCounts_record. lia.
Qed.

Lemma checkRateLimitTimes_invariant L n : ∀ s bound,
  countsPositive (errorCounts s) →
  sumCounts (errorCounts s) <= bound →
  rateLimitMax (config L) <= bound →
  countsPositive (errorCounts (checkRateLimitTimes L n s).2)
  ∧ sumCounts (errorCounts (checkRateLimitTimes L n s).2) <= bound.
Proof.
  induction n as [|n IH]; intros s bound Hpos Hsum Hcap; [done|].
  destruct (checkRateLimit_invariant L s bound Hpos Hsum Hcap) as [Hpos1 Hsum1].
  assert (Hstep : (checkRateLimitTimes L (S n) s).2
                  = (checkRateLimitTimes L n (checkRateLimit L s).2).2).
  { pose proof (checkRateLimit_run L s) as Hrun. simpl in Hrun.
    simpl. unfold bind.
    destruct (checkRateLimit L s) as [[b|e] s1] eqn:Hcall.
    - simpl. destruct (checkRateLimitTimes L n s1) as [[bs|e] s2]; reflexivity.
    - destruct (bool_decide _) in Hrun; discriminate Hrun. }
  rewrite Hstep. by apply IH.
Qed.

(** Whatever the clock reads, a limiter that starts empty never holds
    more than [max 0 C] admissions after any number of calls of
    [checkRateLimit], and every count it holds is positive. *)
Lemma rate_limiter_never_exceeds_capacity L n s :
  errorCounts s = ∅ →
  let s' := (checkRateLimitTimes L n s).2 in
  countsPositive (errorCounts s')
  ∧ sumCounts (errorCounts s') <= Z.max 0 (rateLimitMax (config L)).
Proof.
  intros Hfresh.
  apply checkRateLimitTimes_invariant.
  - intros t c. by rewrite Hfresh, lookup_empty.
  - rewrite Hfresh, sumCounts_empty. lia.
  - lia.
Qed.

Lemma rate_limiter_never_exceeds_capacity_witness :
  let L := sampleLogger 1000 2 false 300000 3 in
  let s := freshSys (fun n => 1700000000000 + 400 * Z.of_nat n) alwaysOk in
  errorCounts s = ∅
  ∧ countsPositive (errorCounts (checkRateLimitTimes L 7 s).2)
  ∧ sumCounts (errorCounts (checkRateLimitTimes L 7 s).2)
    <= Z.max 0 (rateLimitMax (config L)).
Proof.
  intros L s. split; [reflexivity|].
  exact (rate_limiter_never_exceeds_capacity L 7 s eq_refl).
Defined.

(** X2.  Once every recorded admission is older than the window, a
    limiter of positive capacity admits again, and the call leaves the
    single entry [now -> 1]. *)
Theorem rate_limiter_recovers_after_window L s :
  let now := clock s (reads s) in
  (∀ t c, errorCounts s !! t = Some c → rateLimitWindow (config L) < now - t) →
  0 < rateLimitMax (config L) →
  ∃ s',
    checkRateLimit L s = (Normal true, s')
    ∧ errorCounts s' = {[now := 1]}.
Proof.
  intros now Hold Hcap.
  pose proof (checkRateLimit_run L s) as Hrun. simpl in Hrun. fold now in Hrun.
  assert (Hempty : cleanOld (now - rateLimitWindow (config L)) (errorCounts s) = ∅).
  { apply map_empty. intros t. apply map_lookup_filter_None_2.
    destruct (errorCounts s !! t) as [c|] eqn:Hlook; [right|by left].
    intros c' [= <-]. simpl. specialize (Hold t c Hlook). lia. }
  rewrite Hempty, sumCounts_empty in Hrun.
  rewrite bool_decide_eq_false_2 in Hrun by lia.
  eexists. split; [exact Hrun|]. simpl. by rewrite lookup_empty.
Qed.

Lemma rate_limiter_recovers_after_window_witness :
  let L := sampleLogger 1000 1 false 300000 3 in
  let s := mkSys {[1700000000000 := 1]} ∅ (fun _ => 1700000001001) 0
                 alwaysOk 0 [] in
  (∀ t c, errorCounts s !! t = Some c →
          rateLimitWindow (config L) < clock s (reads s) - t)
  ∧ 0 < rateLimitMax (config L)
  ∧ ∃ s', checkRateLimit L s = (Normal true, s')
          ∧ errorCounts s' = {[clock s (reads s) := 1]}.
Proof.
  intros L s.
  assert (Hold : ∀ t c, errorCounts s !! t = Some c →
            rateLimitWindow (config L) < clock s (reads s) - t).
  { intros t c Hlook. simpl in Hlook.
    apply lookup_singleton_Some in Hlook as [<- _]. simpl. lia. }
  assert (Hcap : 0 < rateLimitMax (config L)) by (simpl; lia).
  split; [exact Hold|]. split; [exact Hcap|].
  exact (rate_limiter_recovers_after_window L s Hold Hcap).
Defined.

End LimiterOverTime.

(** ** The sweep *)

Section Sweep.

Implicit Types (s : Sys) (L : Logger).

Lemma cleanupTick_run L s :
  let now := clock s (reads s) in
  cleanupTick L s =
    (Normal tt,
     with_errorHashes
       (cleanOldHashes (now - deduplicateWindow (config L)) (errorHashes s))
       (with_errorCounts
          (cleanOld (now - rateLimitWindow (config L)) (errorCounts s))
          (tick s))).
Proof. reflexivity. Qed.

Lemma cleanOld_twice (w1 w2 : Z) (m : gmap Z Z) :
  w1 <= w2 → cleanOld w2 (cleanOld w1 m) = cleanOld w2 m.
Proof.
  intros Hle. unfold cleanOld. rewrite map_filter_filter.
  apply map_filter_ext. intros t c _. simpl. lia.
Qed.

(** X3.  A sweep that runs before a call of the limiter, on a clock
    that does not run backwards between the two, changes neither the
    answer of the call nor the map the call leaves. *)
Theorem sweep_keeps_limiter_verdict L s :
  clock s (reads s) <= clock s (S (reads s)) →
  let swept := (cleanupTick L ;;; checkRateLimit L) s in
  let plain := checkRateLimit L (tick s) in
  swept.1 = plain.1 ∧ errorCounts swept.2 = errorCounts plain.2.
Proof.
  intros Hclock swept plain. subst swept plain.
  assert (Hrun : (cleanupTick L ;;; checkRateLimit L) s
                 = checkRateLimit L (cleanupTick L s).2) by reflexivity.
  rewrite Hrun, cleanupTick_run. cbv beta iota zeta.
  rewrite !checkRateLimit_run. simpl.
  rewrite cleanOld_twice by lia.
  destruct (bool_decide _); split; reflexivity.
Qed.

Lemma sweep_keeps_limiter_verdict_witness :
  let L := sampleLogger 1000 1 false 300000 3 in
  let s := mkSys {[1700000000000 := 1; 1700000000900 := 1]} ∅
                 (fun n => 1700000001100 + 50 * Z.of_nat n) 0 alwaysOk 0 [] in
  clock s (reads s) <= clock s (S (reads s))
  ∧ ((cleanupTick L ;;; checkRateLimit L) s).1 = (checkRateLimit L (tick s)).1
  ∧ errorCounts ((cleanupTick L ;;; checkRateLimit L) s).2
    = errorCounts (checkRateLimit L (tick s)).2.
Proof.
  intros L s.
  assert (Hclock : clock s (reads s) <= clock s (S (reads s))) by (simpl; lia).
  split; [exact Hclock|].
  exact (sweep_keeps_limiter_verdict L s Hclock).
Defined.

(** X4.  A sweep that runs before a duplicate check, on a clock that
    does not run backwards between the two, does not change the answer
    of the check: the records it removes are those the check would have
    found too old. *)
Theorem sweep_keeps_duplicate_verdict L (h : string) s :
  clock s (reads s) <= clock s (S (reads s)) →
  ((cleanupTick L ;;; isDuplicate L h) s).1 = (isDuplicate L h (tick s)).1.
Proof.
  intros Hclock.
  assert (Hrun : (cleanupTick L ;;; isDuplicate L h) s
                 = isDuplicate L h (cleanupTick L s).2) by reflexivity.
  rewrite Hrun, cleanupTick_run. cbv beta iota zeta.
  rewrite !isDuplicate_run. simpl.
  unfold cleanOldHashes. rewrite map_lookup_filter.
  destruct (errorHashes s !! h) as [lastSeen|] eqn:Hrec; simpl; [|done].
  case_guard as Hkeep; simpl.
  - destruct (lastSeen =? 0); done.
  - simpl in Hkeep. destruct (Z.eqb_spec lastSeen 0); [done|]. simpl.
    symmetry. f_equal. apply Z.ltb_ge. lia.
Qed.

Lemma sweep_keeps_duplicate_verdict_witness :
  let L := sampleLogger 1000 10 true 5000 3 in
  let s := mkSys ∅ {["Error:Duplicate error:/test" := 1700000000000]}
                 (fun n => 1700000006000 + 50 * Z.of_nat n) 0 alwaysOk 0 [] in
  clock s (reads s) <= clock s (S (reads s))
  ∧ ((cleanupTick L ;;; isDuplicate L "Error:Duplicate error:/test") s).1
    = (isDuplicate L "Error:Duplicate error:/test" (tick s)).1.
Proof.
  intros L s.
  assert (Hclock : clock s (reads s) <= clock s (S (reads s))) by (simpl; lia).
  split; [exact Hclock|].
  exact (sweep_keeps_duplicate_verdict L _ s Hclock).
Defined.

End Sweep.

(** ** What the entry points put on the wire *)

Section Wire.

Implicit Types (s : Sys) (L : Logger) (P : event → Prop).







Lemma truncateMessage_length (message : string) :
  (String.length (truncateMessage message) <= maxMessageLength)%nat.
Proof.
  unfold truncateMessage.
  destruct (Nat.leb_spec (String.length message) maxMessageLength) as [Hle|Hgt];
    [done|].
  destruct (truncate_long maxMessageLength truncationNotice message)
    as [Hlen _]; [|exact Hgt|].
  { rewrite truncationNotice_length. apply Nat.leb_le. reflexivity. }
  by rewrite Hlen.
Qed.






End Wire.

(** ** More on the transport and the retry driver *)

Section RetryDriverMore.

Implicit Types (s : Sys) (L : Logger).

(** X6.  The retry driver returns the body of the first attempt that
    succeeds and stops there: when attempts [0 .. k-1] fail and attempt
    [k < retries] is answered with a truthy body, exactly [k + 1]
    requests are sent and that body is returned. *)
Theorem retry_returns_first_success message options retries s k body :
  (k < Z.to_nat retries)%nat →
  (∀ j, (j < k)%nat → fails (network s (posts s + j)) = true) →
  network s (posts s + k) = Resolved (VData body) →
  ∃ s',
    sendMessageWithRetry message options retries s = (Normal (VData body), s')
    ∧ posts s' = (posts s + S k)%nat
    ∧ sameLoggerState s s'.
Proof.
  intros Hk Hbefore Hok.
  destruct (retryLoop_run message options retries (Z.to_nat retries) 0 None s)
    as (v & s' & evs & Hrun & Hsame & _ & _ & Hcases).
  destruct Hcases as [(k' & body' & Hk' & -> & Hok' & Hbefore' & Hposts)
                     |(_ & Hall & _ & _)].
  - assert (k' = k) as ->.
    { destruct (Nat.lt_trichotomy k' k) as [Hlt|[Heq|Hgt]]; [|done|].
      - specialize (Hbefore k' Hlt). rewrite Hok' in Hbefore. discriminate.
      - specialize (Hbefore' k Hgt). rewrite Hok in Hbefore'. discriminate. }
    rewrite Hok in Hok'. injection Hok' as <-.
    exists s'. split; [exact Hrun|]. split; [exact Hposts|exact Hsame].
  - specialize (Hall k Hk). rewrite Hok in Hall. discriminate.
Qed.

Lemma retry_returns_first_success_witness :
  let s := freshSys (fun _ => 1700000000000) failTwiceThenOk in
  (2 < Z.to_nat 5)%nat
  ∧ (∀ j, (j < 2)%nat → fails (network s (posts s + j)) = true)
  ∧ network s (posts s + 2) = Resolved (VData "ok")
  ∧ ∃ s',
      sendMessageWithRetry "hello" noOptions 5 s = (Normal (VData "ok"), s')
      ∧ posts s' = (posts s + 3)%nat
      ∧ sameLoggerState s s'.
Proof.
  intros s.
  assert (H1 : (2 < Z.to_nat 5)%nat) by (simpl; lia).
  assert (H2 : ∀ j, (j < 2)%nat → fails (network s (posts s + j)) = true).
  { intros [|[|j]] Hj; [reflexivity|reflexivity|lia]. }
  assert (H3 : network s (posts s + 2) = Resolved (VData "ok")) by reflexivity.
  split; [exact H1|]. split; [exact H2|]. split; [exact H3|].
  exact (retry_returns_first_success "hello" noOptions 5 s 2 "ok" H1 H2 H3).
Defined.

(** X7.  With [retries <= 0] the loop body never runs: nothing is sent,
    the only effect is the final report, and [null] is returned.  A
    logger whose [retryAttempts] is negative therefore drops every
    custom message it could render. *)
Theorem no_attempts_sends_nothing L message options retries s :
  retries <= 0 →
  sendMessageWithRetry message options retries s
    = (Normal VNull, emit (LogRetriesExhausted retries None) s)
  ∧ ∀ customMessage customOptions text,
      retryAttempts (config L) = retries →
      messageFormatter_format L customMessage customOptions = Normal text →
      sendCustomMessage L customMessage customOptions s
        = (Normal VNull, emit (LogRetriesExhausted retries None) s).
Proof.
  intros Hle.
  assert (Hrun : ∀ m o, sendMessageWithRetry m o retries s
                        = (Normal VNull, emit (LogRetriesExhausted retries None) s)).
  { intros m o. unfold sendMessageWithRetry.
    replace (Z.to_nat retries) with 0%nat by lia. reflexivity. }
  split; [apply Hrun|].
  intros customMessage customOptions text Hcfg Hformat.
  unfold sendCustomMessage, try_catch. unfold bind at 1. unfold call.
  by rewrite Hformat, Hcfg, Hrun.
Qed.

Lemma no_attempts_sends_nothing_witness :
  let L := sampleLogger 60000 10 false 300000 (-1) in
  let s := freshSys (fun _ => 1700000000000) alwaysOk in
  -1 <= 0
  ∧ sendMessageWithRetry "hello" noOptions (-1) s
    = (Normal VNull, emit (LogRetriesExhausted (-1) None) s)
  ∧ sendCustomMessage L "hello" (mkMessageOptions None None) s
    = (Normal VNull, emit (LogRetriesExhausted (-1) None) s).
Proof.
  intros L s.
  assert (Hle : -1 <= 0) by lia.
  destruct (no_attempts_sends_nothing L "hello" noOptions (-1) s Hle)
    as [Hdriver Hcustom].
  split; [exact Hle|]. split; [exact Hdriver|].
  exact (Hcustom "hello" (mkMessageOptions None None) "hello" eq_refl eq_refl).
Defined.


(** X9.  Truncation is idempotent: a message that went through
    [truncateMessage] is returned unchanged by a second pass. *)
Theorem truncateMessage_idempotent (message : string) :
  truncateMessage (truncateMessage message) = truncateMessage message.
Proof.
  pose proof (truncateMessage_length message) as Hlen.
  unfold truncateMessage at 1.
  destruct (Nat.leb_spec (String.length (truncateMessage message))
              maxMessageLength) as [_|Hgt]; [done|lia].
Qed.

(** The delivery tail sends at most [Z.to_nat retries] requests. *)
Lemma delivery_bound (formatted : completion string) retries
    (report : string → event) s :
  let run :=
    try_catch
      (formattedMessage <- call formatted ;;
       sendMessageWithRetry formattedMessage noOptions retries)
      (fun err => log (report (error_message err)) ;;; ret VNull) s in
  (posts s <= posts run.2 <= posts s + Z.to_nat retries)%nat.
Proof.
  cbv [try_catch bind call].
  destruct formatted as [text|exn]; [|simpl; lia].
  destruct (sendMessageWithRetry_never_sleeps text noOptions retries s)
    as (v & s' & evs & Hrun & _ & _ & _ & Hposts).
  by rewrite Hrun.
Qed.

(** X10.  One call of [sendError] or [sendCustomMessage] sends at most
    [retryAttempts] requests (none when [retryAttempts] is negative). *)
Theorem requests_per_call_bounded L s :
  (∀ error context,
     (posts s <= posts (sendError L error context s).2
      <= posts s + Z.to_nat (retryAttempts (config L)))%nat)
  ∧ (∀ message options,
       (posts s <= posts (sendCustomMessage L message options s).2
        <= posts s + Z.to_nat (retryAttempts (config L)))%nat).
Proof.
  split.
  - intros error context.
    destruct (sendError_stages L error context s)
      as [(s' & Hrun & Hposts & _)|(s_adm & Hrun & Hposts & _)].
    + rewrite Hrun. simpl. lia.
    + rewrite Hrun, <- Hposts.
      apply (delivery_bound (errorFormatter_format L error context)
               (retryAttempts (config L)) LogSendErrorFailed s_adm).
  - intros message options.
    apply (delivery_bound (messageFormatter_format L message options)
             (retryAttempts (config L)) LogCustomFailed s).
Qed.

End RetryDriverMore.

(** ** More paths through the governor *)

Section GovernorPaths.

Implicit Types (s : Sys) (L : Logger).

(** X11.  An event that passes the filter while the window is full is
    dropped: [sendError] returns [null], warns, sends nothing, records
    no admission (the limiter holds exactly the entries still in the
    window) and leaves the dedup records alone. *)
Theorem rate_limited_event_is_dropped L error context s :
  let now := clock s (reads s) in
  let W := rateLimitWindow (config L) in
  filterVerdict L error context = Normal true →
  rateLimitMax (config L) <= countInWindow now W (errorCounts s) →
  ∃ s',
    sendError L error context s = (Normal VNull, s')
    ∧ trace s' = trace s ++ [WarnRateLimit]
    ∧ posts s' = posts s
    ∧ errorHashes s' = errorHashes s
    ∧ errorCounts s' =
        filter (fun entry : Z * Z => now - entry.1 <= W) (errorCounts s)
    ∧ sumCounts (errorCounts s') = countInWindow now W (errorCounts s).
Proof.
  intros now W Hfilter Hfull.
  rewrite (sendError_passed _ _ _ _ Hfilter).
  pose proof (checkRateLimit_run L s) as Hrun. simpl in Hrun.
  fold now W in Hrun. rewrite cleanOld_window in Hrun.
  unfold countInWindow in Hfull.
  rewrite bool_decide_eq_true_2 in Hrun by lia.
  rewrite (try_catch_bind_normal _ _ _ _ _ _ Hrun).
  eexists. split; [reflexivity|]. by repeat split.
Qed.

Lemma rate_limited_event_is_dropped_witness :
  let L := sampleLogger 1000 1 true 5000 3 in
  let s := mkSys {[1700000000000 := 1]} ∅ (fun _ => 1700000000500) 0
                 alwaysOk 0 [] in
  let now := clock s (reads s) in
  let W := rateLimitWindow (config L) in
  filterVerdict L sampleError sampleContext = Normal true
  ∧ rateLimitMax (config L) <= countInWindow now W (errorCounts s)
  ∧ ∃ s',
      sendError L sampleError sampleContext s = (Normal VNull, s')
      ∧ trace s' = trace s ++ [WarnRateLimit]
      ∧ posts s' = posts s
      ∧ errorHashes s' = errorHashes s
      ∧ errorCounts s' =
          filter (fun entry : Z * Z => now - entry.1 <= W) (errorCounts s)
      ∧ sumCounts (errorCounts s') = countInWindow now W (errorCounts s).
Proof.
  intros L s now W.
  assert (Hfilter : filterVerdict L sampleError sampleContext = Normal true)
    by reflexivity.
  assert (Hfull : rateLimitMax (config L) <= countInWindow now W (errorCounts s)).
  { vm_compute. discriminate. }
  split; [exact Hfilter|]. split; [exact Hfull|].
  exact (rate_limited_event_is_dropped L sampleError sampleContext s Hfilter Hfull).
Defined.

(** X12.  The limiter runs before the deduplicator, so a suppressed
    duplicate still uses up a slot of the window: the call returns
    [null] and sends nothing, yet the total held by the limiter is one
    more than what the window held. *)
Theorem duplicate_consumes_rate_limit_slot L error context s t1 :
  let now := clock s (reads s) in
  let W := rateLimitWindow (config L) in
  deduplicate (config L) = true →
  filterVerdict L error context = Normal true →
  countInWindow now W (errorCounts s) < rateLimitMax (config L) →
  errorHashes s !! getErrorHash error context = Some t1 →
  t1 ≠ 0 →
  clock s (S (reads s)) - t1 < deduplicateWindow (config L) →
  ∃ s',
    sendError L error context s = (Normal VNull, s')
    ∧ trace s' = trace s ++ [WarnDuplicate]
    ∧ posts s' = posts s
    ∧ errorHashes s' = errorHashes s
    ∧ sumCounts (errorCounts s') = countInWindow now W (errorCounts s) + 1.
Proof.
  intros now W Hdedup Hfilter Hroom Hrec Hstamp Hgap.
  rewrite (sendError_passed _ _ _ _ Hfilter).
  pose proof (checkRateLimit_run L s) as Hrun. simpl in Hrun.
  fold now W in Hrun. rewrite cleanOld_window in Hrun.
  unfold countInWindow in Hroom.
  rewrite bool_decide_eq_false_2 in Hrun by lia.
  rewrite (try_catch_bind_normal _ _ _ _ _ _ Hrun).
  simpl negb. cbv iota. rewrite Hdedup.
  erewrite try_catch_bind_normal.
  2:{ rewrite (checkDeduplication_recorded L error context _ t1);
        [|exact Hrec|exact Hstamp].
      simpl. destruct (Z.ltb_spec (clock s (S (reads s)) - t1)
                         (deduplicateWindow (config L))); [reflexivity|lia]. }
  eexists. split; [reflexivity|]. simpl.
  repeat split; try done. unfold countInWindow. apply sumCounts_record.
Qed.

Lemma duplicate_consumes_rate_limit_slot_witness :
  let L := sampleLogger 1000 10 true 5000 3 in
  let h := getErrorHash sampleError sampleContext in
  let s := mkSys ∅ {[h := 1700000000000]}
                 (fun n => 1700000000100 + Z.of_nat n) 0 alwaysOk 0 [] in
  ∃ s',
    sendError L sampleError sampleContext s = (Normal VNull, s')
    ∧ trace s' = trace s ++ [WarnDuplicate]
    ∧ posts s' = posts s
    ∧ errorHashes s' = errorHashes s
    ∧ sumCounts (errorCounts s')
      = countInWindow (clock s (reads s)) (rateLimitWindow (config L))
          (errorCounts s) + 1.
Proof.
  intros L h s.
  apply (duplicate_consumes_rate_limit_slot L sampleError sampleContext s
           1700000000000); [reflexivity|reflexivity|reflexivity| | |].
  - apply lookup_singleton_eq.
  - discriminate.
  - reflexivity.
Defined.

(** X13.  With deduplication switched off, [sendError] never writes
    a dedup record: [errorHashes] is the same before and after, on
    every path. *)
Theorem dedup_disabled_leaves_hashes L error context s :
  deduplicate (config L) = false →
  errorHashes (sendError L error context s).2 = errorHashes s.
Proof.
  intros Hoff.
  destruct (filterVerdict L error context) as [[|]|exn] eqn:Hfilter.
  - rewrite (sendError_passed _ _ _ _ Hfilter).
    pose proof (checkRateLimit_run L s) as Hrun. simpl in Hrun.
    destruct (bool_decide _) in Hrun;
      rewrite (try_catch_bind_normal _ _ _ _ _ _ Hrun); [reflexivity|].
    simpl negb. cbv iota. rewrite Hoff.
    match goal with
    | |- errorHashes (try_catch _ _ ?sa).2 = _ =>
        destruct (delivery_run (errorFormatter_format L error context)
                    (retryAttempts (config L)) LogSendErrorFailed sa)
          as (v & s' & Hdel & (_ & Hh & _) & _)
    end.
    unfold deliverError. rewrite Hdel. simpl. by rewrite Hh.
  - by rewrite (sendError_filtered _ _ _ _ Hfilter).
  - by rewrite (sendError_filter_throws _ _ _ _ _ Hfilter).
Qed.

Lemma dedup_disabled_leaves_hashes_witness :
  let L := sampleLogger 1000 10 false 5000 3 in
  let s := freshSys (fun _ => 1700000000000) alwaysOk in
  deduplicate (config L) = false
  ∧ errorHashes (sendError L sampleError sampleContext s).2 = errorHashes s.
Proof.
  intros L s. split; [reflexivity|].
  exact (dedup_disabled_leaves_hashes L sampleError sampleContext s eq_refl).
Defined.

End GovernorPaths.

(** ** Delivery and construction *)

Section DeliveryAndConstruction.

Implicit Types (s : Sys) (L : Logger).

(** An event that passes the filter, the limiter and (when enabled) the
    duplicate check reaches the delivery tail with nothing sent and
    nothing logged. *)
Lemma sendError_admitted L error context s :
  filterVerdict L error context = Normal true →
  countInWindow (clock s (reads s)) (rateLimitWindow (config L)) (errorCounts s)
    < rateLimitMax (config L) →
  deduplicate (config L) = false ∨ notDuplicate L error context s →
  ∃ s_adm,
    sendError L error context s =
      try_catch (deliverError L error context)
        (fun err => log (LogSendErrorFailed (error_message err)) ;;; ret VNull)
        s_adm
    ∧ posts s_adm = posts s
    ∧ trace s_adm = trace s
    ∧ network s_adm = network s.
Proof.
  intros Hfilter Hroom Hfresh.
  rewrite (sendError_passed _ _ _ _ Hfilter).
  pose proof (checkRateLimit_run L s) as Hrun. simpl in Hrun.
  rewrite cleanOld_window in Hrun. unfold countInWindow in Hroom.
  rewrite bool_decide_eq_false_2 in Hrun by lia.
  rewrite (try_catch_bind_normal _ _ _ _ _ _ Hrun).
  simpl negb. cbv iota.
  destruct (deduplicate (config L)) eqn:Hdedup; [|by eexists].
  destruct Hfresh as [?|Hfresh]; [done|].
  match goal with
  | |- ∃ _, try_catch (_ <- checkDeduplication _ _ _ ;; _) _ ?st = _ ∧ _ =>
      set (s_r := st)
  end.
  assert (Hblock : ∃ s_adm,
            checkDeduplication L error context s_r = (Normal true, s_adm)
            ∧ posts s_adm = posts s
            ∧ trace s_adm = trace s
            ∧ network s_adm = network s).
  { unfold notDuplicate in Hfresh.
    destruct (errorHashes s !! getErrorHash error context) as [lastSeen|] eqn:Hrec.
    - destruct (decide (lastSeen = 0)) as [->|Hstamp].
      + rewrite (checkDeduplication_zero_stamp L error context s_r Hrec).
        by eexists.
      + destruct Hfresh as [?|Hold]; [done|].
        rewrite (checkDeduplication_recorded L error context s_r lastSeen Hrec Hstamp).
        simpl. destruct (Z.ltb_spec (clock s (S (reads s)) - lastSeen)
                           (deduplicateWindow (config L))); [lia|].
        by eexists.
    - unfold checkDeduplication, bind. rewrite isDuplicate_run.
      simpl. rewrite Hrec. by eexists. }
  destruct Hblock as (s_adm & Hblock & Hposts & Htrace & Hnet).
  rewrite (try_catch_bind_normal _ _ _ _ _ _ Hblock). cbv iota.
  by exists s_adm.
Qed.

(** X14.  An admitted event whose text the formatter rendered and whose
    first request is answered is delivered in one request: [sendError]
    returns the body the transport answered, and the only event of the
    call is the request with the truncated text. *)
Theorem admitted_event_is_delivered L error context s text body :
  filterVerdict L error context = Normal true →
  countInWindow (clock s (reads s)) (rateLimitWindow (config L)) (errorCounts s)
    < rateLimitMax (config L) →
  deduplicate (config L) = false ∨ notDuplicate L error context s →
  errorFormatter_format L error context = Normal text →
  1 <= retryAttempts (config L) →
  network s (posts s) = Resolved (VData body) →
  ∃ s',
    sendError L error context s = (Normal (VData body), s')
    ∧ posts s' = S (posts s)
    ∧ trace s' = trace s ++ [Post (truncateMessage text) 10000].
Proof.
  intros Hfilter Hroom Hfresh Hformat Hretries Hok.
  destruct (sendError_admitted L error context s Hfilter Hroom Hfresh)
    as (s_adm & Hrun & Hposts & Htrace & Hnet).
  rewrite Hrun. cbv [try_catch deliverError bind call]. rewrite Hformat.
  unfold sendMessageWithRetry.
  destruct (Z.to_nat (retryAttempts (config L))) as [|remaining] eqn:Hn; [lia|].
  rewrite retryLoop_iteration, Hnet, Hposts, Hok.
  eexists. split; [reflexivity|]. simpl. by rewrite Hposts, Htrace.
Qed.

Lemma admitted_event_is_delivered_witness :
  let L := sampleLogger 1000 10 true 5000 3 in
  let s := freshSys (fun n => 1700000000000 + Z.of_nat n) alwaysOk in
  ∃ s',
    sendError L sampleError sampleContext s = (Normal (VData "ok"), s')
    ∧ posts s' = S (posts s)
    ∧ trace s' = trace s ++ [Post (truncateMessage "Duplicate error") 10000].
Proof.
  intros L s.
  apply (admitted_event_is_delivered L sampleError sampleContext s
           "Duplicate error" "ok").
  - reflexivity.
  - reflexivity.
  - right. exact I.
  - reflexivity.
  - simpl. lia.
  - reflexivity.
Defined.

(** X15.  The constructor of a logger with both credentials succeeds,
    starts from empty maps, and never keeps a 0 for a window, a capacity
    or a number of attempts: a configured value that is missing or 0 is
    replaced by the default (60000, 10, 300000, 3), any other value is
    kept; deduplication is off unless it was asked for. *)
Theorem constructor_applies_defaults raw errorFormatter messageFormatter s :
  truthy_string (raw_botToken raw) = true →
  truthy_string (raw_chatId raw) = true →
  ∃ L s',
    constructor raw errorFormatter messageFormatter s = (Normal L, s')
    ∧ errorCounts s' = ∅
    ∧ errorHashes s' = ∅
    ∧ trace s' = trace s
    ∧ posts s' = posts s
    ∧ errorFilter (config L) = raw_errorFilter raw
    ∧ rateLimitWindow (config L) ≠ 0
    ∧ rateLimitMax (config L) ≠ 0
    ∧ deduplicateWindow (config L) ≠ 0
    ∧ retryAttempts (config L) ≠ 0
    ∧ (∀ v, raw_rateLimitMax raw = Some v → v ≠ 0 → rateLimitMax (config L) = v)
    ∧ (default 0 (raw_rateLimitMax raw) = 0 → rateLimitMax (config L) = 10)
    ∧ (∀ v, raw_rateLimitWindow raw = Some v → v ≠ 0 →
            rateLimitWindow (config L) = v)
    ∧ (default 0 (raw_rateLimitWindow raw) = 0 →
       rateLimitWindow (config L) = 60000)
    ∧ (∀ v, raw_deduplicateWindow raw = Some v → v ≠ 0 →
            deduplicateWindow (config L) = v)
    ∧ (default 0 (raw_deduplicateWindow raw) = 0 →
       deduplicateWindow (config L) = 300000)
    ∧ (∀ v, raw_retryAttempts raw = Some v → v ≠ 0 → retryAttempts (config L) = v)
    ∧ (default 0 (raw_retryAttempts raw) = 0 → retryAttempts (config L) = 3)
    ∧ deduplicate (config L) = default false (raw_deduplicate raw).
Proof.
  intros Htoken Hchat. unfold constructor. rewrite Htoken, Hchat. simpl.
  assert (Hor : ∀ x d, d ≠ 0 →
            js_or x d ≠ 0
            ∧ (∀ v, x = Some v → v ≠ 0 → js_or x d = v)
            ∧ (default 0 x = 0 → js_or x d = d)).
  { intros [v|] d Hd; simpl.
    - destruct (Z.eqb_spec v 0) as [->|Hv]; (split; [done|split]).
      + by intros v' [= <-] ?.
      + done.
      + by intros v' [= <-] ?.
      + intros Hv0. simpl in Hv0. done.
    - split; [done|split]; [|done]. intros v' ?. discriminate. }
  eexists _, _. split; [reflexivity|]. simpl.
  destruct (Hor (raw_rateLimitMax raw) 10) as (? & ? & ?); [done|].
  destruct (Hor (raw_rateLimitWindow raw) 60000) as (? & ? & ?); [done|].
  destruct (Hor (raw_deduplicateWindow raw) 300000) as (? & ? & ?); [done|].
  destruct (Hor (raw_retryAttempts raw) 3) as (? & ? & ?); [done|].
  repeat split; done.
Qed.

Lemma constructor_applies_defaults_witness :
  let raw := mkRawConfig (Some "bot-token") (Some "chat-id") None
               (Some 0) (Some 0) None None (Some 5) in
  let ef := fun (e : JsError) (_ : Context) => Normal (error_message e) in
  let mf := fun (m : string) (_ : MessageOptions) => Normal m in
  let s := freshSys (fun _ => 1700000000000) alwaysOk in
  ∃ L s',
    constructor raw ef mf s = (Normal L, s')
    ∧ rateLimitMax (config L) = 10
    ∧ rateLimitWindow (config L) = 60000
    ∧ retryAttempts (config L) = 5.
Proof.
  intros raw ef mf s.
  destruct (constructor_applies_defaults raw ef mf s eq_refl eq_refl)
    as (L & s' & Hrun & _ & _ & _ & _ & _ & _ & _ & _ & _ & _ & Hmax & _ & Hwin
        & _ & _ & Hkeep & _ & _).
  exists L, s'. split; [exact Hrun|].
  split; [by apply Hmax|]. split; [by apply Hwin|].
  by apply (Hkeep 5).
Defined.

End DeliveryAndConstruction.

(** ** Escaping *)

Section Escaping.

Import MessageFormatter.

Local Open Scope string_scope.

Lemma append_cons (c : ascii) (a b : string) :
  String c a ++ b = String c (a ++ b).
Proof. reflexivity. Qed.

Lemma append_nil_r (a : string) : a ++ "" = a.
Proof. induction a as [|c a IH]; [done|]. by rewrite append_cons, IH. Qed.

Lemma append_assoc (a b c : string) : (a ++ b) ++ c = a ++ (b ++ c).
Proof. induction a as [|x a IH]; [done|]. by rewrite !append_cons, IH. Qed.

Lemma replaceAll_app c replacement (a b : string) :
  replaceAll c replacement (a ++ b)
  = replaceAll c replacement a ++ replaceAll c replacement b.
Proof.
  induction a as [|x a IH]; [done|].
  rewrite append_cons. simpl. rewrite IH.
  destruct (Ascii.eqb x c); [by rewrite append_assoc|by rewrite append_cons].
Qed.

(** The three replacements of [escapeHtml], run one after the other,
    amount to one pass that escapes each character on its own: the
    text put in for [&] holds no [<] or [>], and so on. *)
Lemma escapeHtml_single_pass (text : string) :
  escapeHtml text = escapeEach text.
Proof.
  unfold escapeHtml. induction text as [|c text IH]; [done|].
  cbn [replaceAll escapeEach].
  destruct (Ascii.eqb_spec c "&") as [->|Hamp].
  - rewrite !replaceAll_app, IH. reflexivity.
  - cbn [replaceAll].
    destruct (Ascii.eqb_spec c "<") as [->|Hlt].
    + rewrite !replaceAll_app, IH. reflexivity.
    + cbn [replaceAll].
      destruct (Ascii.eqb_spec c ">") as [->|Hgt].
      * rewrite IH. reflexivity.
      * by rewrite IH.
Qed.

Lemma errorFormatter_escapeHtml (text : string) :
  ErrorFormatter.escapeHtml text = escapeHtml text.
Proof. reflexivity. Qed.

Lemma escapeEach_length (text : string) :
  (String.length text <= String.length (escapeEach text)
   <= 5 * String.length text)%nat.
Proof.
  induction text as [|c text IH]; simpl; [lia|].
  destruct (Ascii.eqb c "&"); [simpl; lia|].
  destruct (Ascii.eqb c "<"); [simpl; lia|].
  destruct (Ascii.eqb c ">"); simpl; lia.
Qed.

Lemma escapeHtml_angle_aux (text : string) :
  occursIn "<" (escapeHtml text) = false
  ∧ occursIn ">" (escapeHtml text) = false.
Proof.
  rewrite escapeHtml_single_pass.
  induction text as [|c text [IHlt IHgt]]; [done|].
  simpl.
  destruct (Ascii.eqb_spec c "&") as [->|Hamp]; [simpl; by rewrite IHlt, IHgt|].
  destruct (Ascii.eqb_spec c "<") as [->|Hlt]; [simpl; by rewrite IHlt, IHgt|].
  destruct (Ascii.eqb_spec c ">") as [->|Hgt]; [simpl; by rewrite IHlt, IHgt|].
  simpl. rewrite IHlt, IHgt.
  split; apply orb_false_iff; (split; [|done]); by apply Ascii.eqb_neq.
Qed.

(** X16.  The output of [escapeHtml] holds no [<] and no [>], whatever
    the text: escaped text cannot open or close a tag. *)
Theorem escapeHtml_no_angle_brackets (text : string) :
  occursIn "<" (escapeHtml text) = false
  ∧ occursIn ">" (escapeHtml text) = false.
Proof. apply escapeHtml_angle_aux. Qed.

Lemma escapeEach_injective (a : string) : ∀ b,
  escapeEach a = escapeEach b → a = b.
Proof.
  induction a as [|c a IH]; intros [|d b] Heq; [done| | |].
  - simpl in Heq.
    destruct (Ascii.eqb d "&"); [discriminate|].
    destruct (Ascii.eqb d "<"); [discriminate|].
    destruct (Ascii.eqb d ">"); discriminate.
  - simpl in Heq.
    destruct (Ascii.eqb c "&"); [discriminate|].
    destruct (Ascii.eqb c "<"); [discriminate|].
    destruct (Ascii.eqb c ">"); discriminate.
  - simpl in Heq.
    destruct (Ascii.eqb_spec c "&") as [->|Hc1];
      destruct (Ascii.eqb_spec d "&") as [->|Hd1];
      try (destruct (Ascii.eqb_spec c "<") as [->|Hc2]);
      try (destruct (Ascii.eqb_spec d "<") as [->|Hd2]);
      try (destruct (Ascii.eqb_spec c ">") as [->|Hc3]);
      try (destruct (Ascii.eqb_spec d ">") as [->|Hd3]);
      try discriminate Heq;
      try (injection Heq as Heq; f_equal; by apply IH);
      try (injection Heq as Hcd Heq; congruence).
    injection Heq as -> Heq. f_equal. by apply IH.
Qed.

(** X17.  [escapeHtml] loses nothing: two texts with the same escaped
    form are the same text. *)
Theorem escapeHtml_injective (a b : string) :
  escapeHtml a = escapeHtml b → a = b.
Proof. rewrite !escapeHtml_single_pass. apply escapeEach_injective. Qed.

Lemma escapeHtml_injective_witness :
  escapeHtml "a<b" = escapeHtml "a<b" ∧ "a<b" = "a<b".
Proof.
  split; [reflexivity|].
  exact (escapeHtml_injective "a<b" "a<b" eq_refl).
Defined.

(** X18.  [escapeHtml] returns a text unchanged exactly when the text
    holds none of [&], [<], [>]; in particular escaping an escaped text
    again changes it as soon as something was escaped the first time. *)
Theorem escapeHtml_fixes_clean_text (text : string) :
  escapeHtml text = text
  ↔ occursIn "&" text = false
    ∧ occursIn "<" text = false
    ∧ occursIn ">" text = false.
Proof.
  rewrite escapeHtml_single_pass.
  induction text as [|c text IH]; [done|].
  pose proof (escapeEach_length text) as Hlen.
  simpl.
  destruct (Ascii.eqb_spec c "&") as [->|Hamp].
  { split; [|intros [? _]; discriminate].
    intros [= Heq]. apply (f_equal String.length) in Heq. simpl in Heq. lia. }
  destruct (Ascii.eqb_spec c "<") as [->|Hlt].
  { split; [intros [=]|intros (_ & ? & _); discriminate]. }
  destruct (Ascii.eqb_spec c ">") as [->|Hgt].
  { split; [intros [=]|intros (_ & _ & ?); discriminate]. }
  simpl. split.
  - intros [= Heq]. by apply IH.
  - intros Hclean. f_equal. by apply IH.
Qed.

Lemma escapeHtml_concat_and_length_aux (a : string) :
  (∀ b, escapeHtml (a ++ b) = escapeHtml a ++ escapeHtml b)
  ∧ (String.length a <= String.length (escapeHtml a)
     <= 5 * String.length a)%nat.
Proof.
  split; [|rewrite escapeHtml_single_pass; apply escapeEach_length].
  intros b. rewrite !escapeHtml_single_pass.
  induction a as [|c a IH]; [done|].
  rewrite append_cons. simpl. rewrite IH.
  destruct (Ascii.eqb c "&"); [done|].
  destruct (Ascii.eqb c "<"); [done|].
  destruct (Ascii.eqb c ">"); done.
Qed.

(** X19.  Escaping works character by character: the escaped form of a
    concatenation is the concatenation of the escaped forms, and it is
    at least as long as the text and at most five times as long. *)
Theorem escapeHtml_concat_and_length (a b : string) :
  escapeHtml (a ++ b) = escapeHtml a ++ escapeHtml b
  ∧ (String.length a <= String.length (escapeHtml a)
     <= 5 * String.length a)%nat.
Proof.
  destruct (escapeHtml_concat_and_length_aux a) as [Happ Hlen].
  split; [apply Happ|exact Hlen].
Qed.

End Escaping.

(** ** Redaction *)

Section Redaction.

Import ErrorFormatter.

Implicit Types (obj : gmap string JsValue) (fields : list string).

(** The value the loop leaves under each key. *)
Lemma redactLoop_lookup fields : ∀ obj key,
  redactLoop fields obj !! key =
    match obj !! key with
    | Some v =>
        if bool_decide (key ∈ fields) && truthyValue v then Some redacted
        else Some v
    | None => None
    end.
Proof.
  induction fields as [|field fields IH]; intros obj key.
  - unfold redactLoop. cbn [foldl]. destruct (obj !! key) as [v|]; [|done].
    rewrite bool_decide_eq_false_2; [done|]. apply not_elem_of_nil.
  - unfold redactLoop in *. simpl. rewrite IH. clear IH.
    destruct (decide (key = field)) as [->|Hne].
    + rewrite (bool_decide_eq_true_2 (field ∈ field :: fields));
        [|by left].
      destruct (obj !! field) as [v|] eqn:Hv.
      * destruct (truthyValue v) eqn:Htruthy.
        -- rewrite lookup_insert_eq. simpl.
           by destruct (bool_decide (field ∈ fields)).
        -- rewrite Hv, Htruthy. by rewrite !andb_false_r.
      * by rewrite Hv.
    + assert (Hmem : bool_decide (key ∈ field :: fields)
                     = bool_decide (key ∈ fields)).
      { apply bool_decide_ext. rewrite elem_of_cons.
        split; [intros [?|?]; [done|done]|by right]. }
      rewrite Hmem.
      destruct (obj !! field) as [v|]; [|done].
      destruct (truthyValue v); [|done].
      by rewrite lookup_insert_ne.
Qed.

Lemma redactLoop_spec fields obj key :
  (∀ v, key ∈ fields → obj !! key = Some v → truthyValue v = true →
        redactLoop fields obj !! key = Some redacted)
  ∧ (∀ v, obj !! key = Some v → truthyValue v = false →
          redactLoop fields obj !! key = Some v)
  ∧ (key ∉ fields → redactLoop fields obj !! key = obj !! key)
  ∧ (obj !! key = None → redactLoop fields obj !! key = None)
  ∧ (∀ v, key ∈ fields → redactLoop fields obj !! key = Some v →
          v = redacted ∨ truthyValue v = false).
Proof.
  rewrite redactLoop_lookup.
  split; [|split; [|split; [|split]]].
  - intros v Hin -> ->. by rewrite bool_decide_eq_true_2.
  - intros v -> ->. by rewrite andb_false_r.
  - intros Hnotin. destruct (obj !! key); [|done].
    by rewrite bool_decide_eq_false_2.
  - by intros ->.
  - intros v Hin. destruct (obj !! key) as [w|]; [|done].
    rewrite bool_decide_eq_true_2 by done. simpl.
    destruct (truthyValue w) eqn:Hw; intros [= <-]; [by left|by right].
Qed.

Lemma redactLoop_idempotent fields obj :
  redactLoop fields (redactLoop fields obj) = redactLoop fields obj.
Proof.
  apply map_eq. intros key. rewrite !redactLoop_lookup.
  destruct (obj !! key) as [v|]; [|done].
  destruct (bool_decide (key ∈ fields)); simpl; [|done].
  destruct (truthyValue v) eqn:Hv; [done|]. by rewrite Hv.
Qed.

Lemma redactLoop_dom fields obj : dom (redactLoop fields obj) = dom obj.
Proof.
  apply set_eq. intros key. rewrite !elem_of_dom, redactLoop_lookup.
  destruct (obj !! key) as [v|]; [|done].
  destruct (bool_decide (key ∈ fields) && truthyValue v);
    split; intros _; by eexists.
Qed.

(** X20.  [sanitizeBody] replaces the value of each of [password],
    [token], [secret], [apiKey], [api_key], [authorization] by
    ['[REDACTED]'] when that value is truthy.  It leaves a falsy value
    under such a key as it is (an empty password stays an empty string),
    leaves every other key untouched, whatever it holds (a nested object
    keeps its own [password]), and adds no key.  After it, a sensitive
    key holds ['[REDACTED]'] or a falsy value. *)
Theorem sanitizeBody_redacts body key :
  (∀ v, key ∈ sensitiveFields → body !! key = Some v → truthyValue v = true →
        sanitizeBody body !! key = Some redacted)
  ∧ (∀ v, body !! key = Some v → truthyValue v = false →
          sanitizeBody body !! key = Some v)
  ∧ (key ∉ sensitiveFields → sanitizeBody body !! key = body !! key)
  ∧ (body !! key = None → sanitizeBody body !! key = None)
  ∧ (∀ v, key ∈ sensitiveFields → sanitizeBody body !! key = Some v →
          v = redacted ∨ truthyValue v = false).
Proof. apply redactLoop_spec. Qed.

Lemma sanitizeBody_redacts_witness :
  sanitizeBody sampleBody !! "password" = Some redacted
  ∧ sanitizeBody sampleBody !! "token" = Some (JStr "")
  ∧ sanitizeBody sampleBody !! "Password" = Some (JStr "other")
  ∧ sanitizeBody sampleBody !! "user"
    = Some (JObj [("password", JStr "nested")])
  ∧ sanitizeBody sampleBody !! "apiKey" = None.
Proof.
  destruct (sanitizeBody_redacts sampleBody "password") as (H1 & _).
  destruct (sanitizeBody_redacts sampleBody "token") as (_ & H2 & _).
  destruct (sanitizeBody_redacts sampleBody "Password") as (_ & _ & H3 & _).
  destruct (sanitizeBody_redacts sampleBody "user") as (_ & _ & H4 & _).
  destruct (sanitizeBody_redacts sampleBody "apiKey") as (_ & _ & _ & H5 & _).
  split; [apply (H1 (JStr "secret123")); [|reflexivity|reflexivity]|].
  { unfold sensitiveFields. set_solver. }
  split; [by apply H2|].
  split; [rewrite H3; [reflexivity|]|].
  { unfold sensitiveFields. intros Hin.
    repeat (apply elem_of_cons in Hin as [Heq|Hin]; [discriminate Heq|]).
    by apply elem_of_nil in Hin. }
  split; [rewrite H4; [reflexivity|]|by apply H5].
  unfold sensitiveFields. intros Hin.
  repeat (apply elem_of_cons in Hin as [Heq|Hin]; [discriminate Heq|]).
  by apply elem_of_nil in Hin.
Defined.

(** X21.  [sanitizeHeaders] does the same for [authorization], [cookie],
    [x-api-key] and [x-auth-token], compared as they are written: a
    header under another spelling of these names is not redacted. *)
Theorem sanitizeHeaders_redacts headers key :
  (∀ v, key ∈ sensitiveHeaders → headers !! key = Some v →
        truthyValue v = true → sanitizeHeaders headers !! key = Some redacted)
  ∧ (∀ v, headers !! key = Some v → truthyValue v = false →
          sanitizeHeaders headers !! key = Some v)
  ∧ (key ∉ sensitiveHeaders → sanitizeHeaders headers !! key = headers !! key)
  ∧ (headers !! key = None → sanitizeHeaders headers !! key = None)
  ∧ (∀ v, key ∈ sensitiveHeaders → sanitizeHeaders headers !! key = Some v →
          v = redacted ∨ truthyValue v = false).
Proof. apply redactLoop_spec. Qed.

Lemma sanitizeHeaders_redacts_witness :
  sanitizeHeaders sampleHeaders !! "authorization" = Some redacted
  ∧ sanitizeHeaders sampleHeaders !! "Cookie" = Some (JStr "sid=1")
  ∧ sanitizeHeaders sampleHeaders !! "cookie" = None.
Proof.
  destruct (sanitizeHeaders_redacts sampleHeaders "authorization") as (H1 & _).
  destruct (sanitizeHeaders_redacts sampleHeaders "Cookie") as (_ & _ & H2 & _).
  destruct (sanitizeHeaders_redacts sampleHeaders "cookie") as (_ & _ & _ & H3 & _).
  split; [apply (H1 (JStr "Bearer abc")); [|reflexivity|reflexivity]|].
  { unfold sensitiveHeaders. set_solver. }
  split; [rewrite H2; [reflexivity|]|by apply H3].
  unfold sensitiveHeaders. intros Hin.
  repeat (apply elem_of_cons in Hin as [Heq|Hin]; [discriminate Heq|]).
  by apply elem_of_nil in Hin.
Defined.

(** X22.  Both sanitizers keep the set of keys of the object they are
    given and are idempotent: sanitizing a sanitized object changes
    nothing. *)
Theorem sanitizers_keep_keys_and_are_idempotent (obj : gmap string JsValue) :
  dom (sanitizeBody obj) = dom obj
  ∧ dom (sanitizeHeaders obj) = dom obj
  ∧ sanitizeBody (sanitizeBody obj) = sanitizeBody obj
  ∧ sanitizeHeaders (sanitizeHeaders obj) = sanitizeHeaders obj.
Proof.
  unfold sanitizeBody, sanitizeHeaders.
  split; [apply redactLoop_dom|]. split; [apply redactLoop_dom|].
  split; apply redactLoop_idempotent.
Qed.

End Redaction.

(** ** Rendering of objects and stack traces *)

Section Rendering.

Import ErrorFormatter.

Local Open Scope string_scope.

Lemma occursIn_app c (a b : string) :
  occursIn c (a ++ b) = occursIn c a || occursIn c b.
Proof.
  induction a as [|x a IH]; [done|].
  rewrite append_cons. simpl. rewrite IH. by rewrite orb_assoc.
Qed.

Lemma substring_length_le (n : nat) : ∀ text : string,
  (String.length (String.substring 0 n text) <= n)%nat.
Proof.
  induction n as [|n IH]; intros [|c text]; simpl; try lia.
  specialize (IH text). lia.
Qed.

(** X23.  [formatObject] never throws and never returns more than 2503
    characters, none of them [<] or [>]: when the serializer throws or
    yields [undefined] the result is ['[Unable to serialize]']; a
    serialization of at most 500 characters is escaped whole; a longer
    one is cut to its first 500 characters, escaped, and followed by
    ['...']. *)
Theorem formatObject_bounded {A} (stringify : A → completion (option string))
    (obj : A) :
  (String.length (formatObject stringify obj) <= 2503)%nat
  ∧ occursIn "<" (formatObject stringify obj) = false
  ∧ occursIn ">" (formatObject stringify obj) = false
  ∧ match stringify obj with
    | Normal (Some str) =>
        if (500 <? String.length str)%nat
        then formatObject stringify obj
             = ErrorFormatter.escapeHtml (String.substring 0 500 str) ++ "..."
        else formatObject stringify obj = ErrorFormatter.escapeHtml str
    | _ => formatObject stringify obj = "[Unable to serialize]"
    end.
Proof.
  unfold formatObject.
  destruct (stringify obj) as [[str|]|exn];
    [|by repeat split; try (simpl; lia)..].
  destruct (Nat.ltb_spec 500 (String.length str)) as [Hlong|Hshort].
  - pose proof (substring_length_le 500 str) as Hcut.
    destruct (escapeHtml_concat_and_length_aux (String.substring 0 500 str))
      as [_ Hlen].
    destruct (escapeHtml_angle_aux (String.substring 0 500 str)) as [Hlt Hgt].
    rewrite !errorFormatter_escapeHtml.
    split; [rewrite string_length_append; simpl; lia|].
    split; [by rewrite occursIn_app, Hlt|].
    split; [by rewrite occursIn_app, Hgt|done].
  - destruct (escapeHtml_concat_and_length_aux str) as [_ Hlen].
    destruct (escapeHtml_angle_aux str) as [Hlt Hgt].
    rewrite !errorFormatter_escapeHtml.
    split; [lia|]. by repeat split.
Qed.

Lemma split_nonempty sep (text : string) : split sep text ≠ [].
Proof.
  destruct text as [|c text]; simpl; [done|].
  destruct (Ascii.eqb c sep); [done|]. by destruct (split sep text).
Qed.

Lemma join_cons_char sep c (line : string) lines :
  join sep (String c line :: lines) = String c (join sep (line :: lines)).
Proof. by destruct lines. Qed.

(** Splitting a text at a character and joining the pieces with that
    character gives the text back. *)
Lemma join_split sep (text : string) :
  join (String sep "") (split sep text) = text.
Proof.
  induction text as [|c text IH]; [done|].
  simpl. destruct (Ascii.eqb_spec c sep) as [->|Hne].
  - pose proof (split_nonempty sep text) as Hnonempty.
    destruct (split sep text) as [|line lines]; [done|].
    change (join (String sep "") ("" :: line :: lines))
      with ("" ++ String sep "" ++ join (String sep "") (line :: lines)).
    rewrite IH. reflexivity.
  - pose proof (split_nonempty sep text) as Hnonempty.
    destruct (split sep text) as [|line lines]; [done|].
    by rewrite join_cons_char, IH.
Qed.

(** X24.  With a limit [maxStackTraceLines >= 0]: a stack trace of at
    most that many lines is rendered whole, escaped, between the opening
    and [</code>], with no truncation notice; a longer one is cut to its
    first [maxStackTraceLines] lines and the notice is appended. *)
Theorem formatStackTrace_keeps_first_lines (maxStackTraceLines : Z)
    (stack : string) :
  0 <= maxStackTraceLines →
  let lines := split lineFeed stack in
  (Z.of_nat (length lines) <= maxStackTraceLines →
   formatStackTrace maxStackTraceLines stack
   = stackTraceOpen ++ ErrorFormatter.escapeHtml stack ++ "</code>")
  ∧ (maxStackTraceLines < Z.of_nat (length lines) →
     formatStackTrace maxStackTraceLines stack
     = (stackTraceOpen
        ++ ErrorFormatter.escapeHtml
             (join (String lineFeed "")
                (take (Z.to_nat maxStackTraceLines) lines))
        ++ "</code>") ++ stackTraceTruncated
     ∧ length (take (Z.to_nat maxStackTraceLines) lines)
       = Z.to_nat maxStackTraceLines).
Proof.
  intros Hmax lines. unfold formatStackTrace, slice0. fold lines.
  destruct (Z.ltb_spec maxStackTraceLines 0) as [?|_]; [lia|].
  split; intros Hlen.
  - destruct (Z.ltb_spec maxStackTraceLines (Z.of_nat (length lines)));
      [lia|].
    rewrite take_ge by lia. unfold lines. by rewrite join_split.
  - destruct (Z.ltb_spec maxStackTraceLines (Z.of_nat (length lines)));
      [|lia].
    split; [done|]. rewrite length_take. lia.
Qed.

Lemma formatStackTrace_keeps_first_lines_witness :
  0 <= 2
  ∧ 2 < Z.of_nat (length (split lineFeed sampleStack))
  ∧ formatStackTrace 2 sampleStack
    = (stackTraceOpen
       ++ ErrorFormatter.escapeHtml
            ("Error: boom" ++ String lineFeed "    at f (a.js:1:1)")
       ++ "</code>") ++ stackTraceTruncated
  ∧ Z.of_nat (length (split lineFeed sampleStack)) <= 10
  ∧ formatStackTrace 10 sampleStack
    = stackTraceOpen ++ ErrorFormatter.escapeHtml sampleStack ++ "</code>".
Proof.
  assert (H2 : 0 <= 2) by lia.
  assert (H10 : 0 <= 10) by lia.
  assert (Hlong : 2 < Z.of_nat (length (split lineFeed sampleStack)))
    by (vm_compute; reflexivity).
  assert (Hshort : Z.of_nat (length (split lineFeed sampleStack)) <= 10)
    by (vm_compute; discriminate).
  split; [exact H2|]. split; [exact Hlong|].
  split.
  - exact (proj1 (proj2 (formatStackTrace_keeps_first_lines 2 sampleStack H2)
                   Hlong)).
  - split; [exact Hshort|].
    exact (proj1 (formatStackTrace_keeps_first_lines 10 sampleStack H10) Hshort).
Defined.

End Rendering.

(** ** The identity of an error *)

Section Identity.

Local Open Scope string_scope.

Lemma append_cancel_l (a x y : string) : a ++ x = a ++ y → x = y.
Proof.
  induction a as [|c a IH]; [done|].
  rewrite !append_cons. intros [= Heq]. by apply IH.
Qed.

Lemma append_cancel_r (x : string) : ∀ y b : string,
  x ++ b = y ++ b → x = y.
Proof.
  induction x as [|c x IH]; intros [|d y] b Heq; [done| | |].
  - apply (f_equal String.length) in Heq.
    rewrite append_cons in Heq. simpl in Heq.
    rewrite !string_length_append in Heq. simpl in Heq. lia.
  - apply (f_equal String.length) in Heq.
    rewrite append_cons in Heq. simpl in Heq.
    rewrite !string_length_append in Heq. simpl in Heq. lia.
  - rewrite !append_cons in Heq. injection Heq as -> Heq.
    f_equal. by apply (IH y b).
Qed.

(** X25.  For a given error name and request context, the identity
    used for deduplication tells messages apart: two errors with the
    same name and the same identity have the same message. *)
Theorem getErrorHash_tells_messages_apart (e1 e2 : JsError) (context : Context) :
  error_name e1 = error_name e2 →
  getErrorHash e1 context = getErrorHash e2 context →
  error_message e1 = error_message e2.
Proof.
  unfold getErrorHash. intros -> Heq.
  apply append_cancel_l in Heq. apply append_cancel_l in Heq.
  by apply append_cancel_r in Heq.
Qed.

Lemma getErrorHash_tells_messages_apart_witness :
  let e := mkError "Error" "Test error" in
  error_name e = error_name e
  ∧ getErrorHash e sampleContext = getErrorHash e sampleContext
  ∧ error_message e = error_message e.
Proof.
  intros e. split; [reflexivity|]. split; [reflexivity|].
  exact (getErrorHash_tells_messages_apart e e sampleContext eq_refl eq_refl).
Defined.

(** X26.  The identity is not unique across names: the colon that
    separates its parts may also occur inside them, so an error named
    [a] with message [b:c] and an error named [a:b] with message [c] are
    different errors with the same identity in every context. *)
Theorem getErrorHash_colon_collision (a b c : string) (context : Context) :
  let e1 := mkError a (b ++ ":" ++ c) in
  let e2 := mkError (a ++ ":" ++ b) c in
  e1 ≠ e2 ∧ getErrorHash e1 context = getErrorHash e2 context.
Proof.
  intros e1 e2. split.
  - intros [= Hname _]. apply (f_equal String.length) in Hname.
    rewrite !string_length_append in Hname. simpl in Hname. lia.
  - unfold getErrorHash. simpl. by rewrite !append_assoc.
Qed.

(** X27.  The place that enters the identity is the route when the
    context has a non-empty one, whatever the URL is; the URL when the
    route is missing or empty; and nothing when both are missing or
    empty. *)
Theorem getErrorHash_place (error : JsError) (r u u' : string) :
  (r ≠ "" →
   getErrorHash error (mkContext (Some r) (Some u))
   = getErrorHash error (mkContext (Some r) (Some u'))
   ∧ getErrorHash error (mkContext (Some r) None)
     = error_name error ++ ":" ++ error_message error ++ ":" ++ r)
  ∧ (u ≠ "" →
     getErrorHash error (mkContext None (Some u))
     = error_name error ++ ":" ++ error_message error ++ ":" ++ u
     ∧ getErrorHash error (mkContext (Some "") (Some u))
       = getErrorHash error (mkContext None (Some u)))
  ∧ getErrorHash error (mkContext None None)
    = error_name error ++ ":" ++ error_message error ++ ":"
  ∧ getErrorHash error (mkContext (Some "") (Some ""))
    = getErrorHash error (mkContext None None).
Proof.
  unfold getErrorHash, truthy_string. simpl.
  split; [|split; [|split]].
  - intros Hr. destruct (String.eqb_spec r ""); [done|]. simpl. done.
  - intros Hu. destruct (String.eqb_spec u ""); [done|]. simpl. done.
  - done.
  - done.
Qed.

Lemma getErrorHash_place_witness :
  getErrorHash sampleError (mkContext (Some "/users/:id") (Some "/users/1"))
  = getErrorHash sampleError (mkContext (Some "/users/:id") (Some "/users/2"))
  ∧ getErrorHash sampleError (mkContext (Some "") (Some "/users/1"))
    = getErrorHash sampleError (mkContext None (Some "/users/1")).
Proof.
  destruct (getErrorHash_place sampleError "/users/:id" "/users/1" "/users/2")
    as (Hroute & _).
  destruct (getErrorHash_place sampleError "/users/:id" "/users/1" "/users/2")
    as (_ & Hurl & _).
  split.
  - apply Hroute. discriminate.
  - apply Hurl. discriminate.
Defined.

End Identity.

(** ** Rendering failures and independent identities *)

Section MoreGovernor.

Implicit Types (s : Sys) (L : Logger).

(** X28.  An event that was admitted but whose rendering throws is
    lost: [sendError] reports the failure, returns [null] and sends
    nothing.  The admission is not undone: the limiter holds one
    admission more than the window held, and with deduplication on the
    identity of the event now has a record. *)
Theorem render_failure_keeps_admission L error context s exn :
  let now := clock s (reads s) in
  let W := rateLimitWindow (config L) in
  filterVerdict L error context = Normal true →
  countInWindow now W (errorCounts s) < rateLimitMax (config L) →
  deduplicate (config L) = false ∨ notDuplicate L error context s →
  errorFormatter_format L error context = Throw exn →
  ∃ s',
    sendError L error context s = (Normal VNull, s')
    ∧ posts s' = posts s
    ∧ trace s' = trace s ++ [LogSendErrorFailed (error_message exn)]
    ∧ sumCounts (errorCounts s') = countInWindow now W (errorCounts s) + 1
    ∧ (deduplicate (config L) = true →
       is_Some (errorHashes s' !! getErrorHash error context)).
Proof.
  intros now W Hfilter Hroom Hfresh Hformat.
  rewrite (sendError_passed _ _ _ _ Hfilter).
  pose proof (checkRateLimit_run L s) as Hrun. simpl in Hrun.
  fold now W in Hrun. rewrite cleanOld_window in Hrun.
  unfold countInWindow in Hroom.
  rewrite bool_decide_eq_false_2 in Hrun by lia.
  rewrite (try_catch_bind_normal _ _ _ _ _ _ Hrun).
  simpl negb. cbv iota.
  destruct (deduplicate (config L)) eqn:Hdedup.
  - destruct Hfresh as [?|Hfresh]; [done|].
    match goal with
    | |- ∃ _, try_catch (_ <- checkDeduplication _ _ _ ;; _) _ ?st = _ ∧ _ =>
        set (s_r := st)
    end.
    assert (Hblock : ∃ s_adm,
              checkDeduplication L error context s_r = (Normal true, s_adm)
              ∧ posts s_adm = posts s
              ∧ trace s_adm = trace s
              ∧ errorCounts s_adm = errorCounts s_r
              ∧ is_Some (errorHashes s_adm !! getErrorHash error context)).
    { unfold notDuplicate in Hfresh.
      destruct (errorHashes s !! getErrorHash error context)
        as [lastSeen|] eqn:Hrec.
      - destruct (decide (lastSeen = 0)) as [->|Hstamp].
        + rewrite (checkDeduplication_zero_stamp L error context s_r Hrec).
          eexists. repeat split; try done. simpl.
          rewrite lookup_insert_eq. by eexists.
        + destruct Hfresh as [?|Hold]; [done|].
          rewrite (checkDeduplication_recorded L error context s_r lastSeen
                     Hrec Hstamp).
          simpl. destruct (Z.ltb_spec (clock s (S (reads s)) - lastSeen)
                             (deduplicateWindow (config L))); [lia|].
          eexists. repeat split; try done. simpl.
          rewrite lookup_insert_eq. by eexists.
      - unfold checkDeduplication, bind. rewrite isDuplicate_run.
        simpl. rewrite Hrec. eexists. repeat split; try done. simpl.
        rewrite lookup_insert_eq. by eexists. }
    destruct Hblock as (s_adm & Hblock & Hposts & Htrace & Hcounts & Hrecord).
    rewrite (try_catch_bind_normal _ _ _ _ _ _ Hblock). cbv iota.
    cbv [try_catch deliverError bind call log ret]. rewrite Hformat.
    eexists. split; [reflexivity|]. simpl.
    split; [done|]. split; [by rewrite Htrace|].
    split; [|done]. rewrite Hcounts. simpl. apply sumCounts_record.
  - cbv [try_catch deliverError bind call log ret]. rewrite Hformat.
    eexists. split; [reflexivity|]. simpl.
    split; [done|]. split; [done|]. split; [|done]. apply sumCounts_record.
Qed.

Lemma render_failure_keeps_admission_witness :
  let L := mkLogger (mkConfig None 1000 10 true 5000 3) throwingFormatter
             (fun message _ => Normal message) in
  let s := freshSys (fun n => 1700000000000 + Z.of_nat n) alwaysOk in
  ∃ s',
    sendError L sampleError sampleContext s = (Normal VNull, s')
    ∧ posts s' = posts s
    ∧ trace s' = trace s ++ [LogSendErrorFailed "cannot render"]
    ∧ sumCounts (errorCounts s')
      = countInWindow (clock s (reads s)) (rateLimitWindow (config L))
          (errorCounts s) + 1
    ∧ (deduplicate (config L) = true →
       is_Some (errorHashes s' !! getErrorHash sampleError sampleContext)).
Proof.
  intros L s.
  apply (render_failure_keeps_admission L sampleError sampleContext s
           (mkError "TypeError" "cannot render")).
  - reflexivity.
  - reflexivity.
  - right. exact I.
  - reflexivity.
Defined.

(** X29.  The deduplicator keeps identities apart.  A first submission
    (no record yet) is admitted and recorded with the clock reading of
    that moment; and whatever the verdict on one identity, the record of
    every other identity is left as it was. *)
Theorem dedup_identities_are_independent L error context s :
  let h := getErrorHash error context in
  (errorHashes s !! h = None →
   checkDeduplication L error context s
   = (Normal true,
      with_errorHashes (<[h := clock s (reads s)]> (errorHashes s)) (tick s)))
  ∧ (∀ h', h' ≠ h →
       errorHashes (checkDeduplication L error context s).2 !! h'
       = errorHashes s !! h').
Proof.
  intros h. split.
  - intros Hnone. unfold checkDeduplication, bind. rewrite isDuplicate_run.
    fold h. by rewrite Hnone.
  - intros h' Hne. unfold checkDeduplication, bind. rewrite isDuplicate_run.
    fold h.
    destruct (errorHashes s !! h) as [lastSeen|].
    + destruct (lastSeen =? 0); simpl; [by rewrite lookup_insert_ne|].
      destruct (clock s (reads s) - lastSeen <? deduplicateWindow (config L));
        simpl; [done|by rewrite lookup_insert_ne].
    + simpl. by rewrite lookup_insert_ne.
Qed.

Lemma dedup_identities_are_independent_witness :
  let L := sampleLogger 1000 10 true 5000 3 in
  let s := mkSys ∅ {["Error:other:/x" := 1700000000000]}
                 (fun n => 1700000000100 + Z.of_nat n) 0 alwaysOk 0 [] in
  errorHashes s !! getErrorHash sampleError sampleContext = None
  ∧ (checkDeduplication L sampleError sampleContext s).1 = Normal true
  ∧ errorHashes (checkDeduplication L sampleError sampleContext s).2
      !! "Error:other:/x" = Some 1700000000000.
Proof.
  intros L s.
  destruct (dedup_identities_are_independent L sampleError sampleContext s)
    as [Hfirst Hother].
  assert (Hnone : errorHashes s !! getErrorHash sampleError sampleContext = None)
    by reflexivity.
  split; [exact Hnone|]. split.
  - by rewrite (Hfirst Hnone).
  - rewrite (Hother "Error:other:/x"); [reflexivity|discriminate].
Defined.

End MoreGovernor.

(** ** The limiter under every sequence of operations *)

Section LimiterInvariant.

Implicit Types (s : Sys) (L : Logger).

Lemma limiterWithin_same_counts bound s s' :
  errorCounts s' = errorCounts s → limiterWithin bound s → limiterWithin bound s'.
Proof. unfold limiterWithin. by intros ->. Qed.

Lemma sendError_limiterWithin L error context s bound :
  rateLimitMax (config L) <= bound →
  limiterWithin bound s →
  limiterWithin bound (sendError L error context s).2.
Proof.
  intros Hcap [Hpos Hsum].
  destruct (filterVerdict L error context) as [[|]|exn] eqn:Hfilter.
  - rewrite (sendError_passed _ _ _ _ Hfilter).
    destruct (checkRateLimit_invariant L s bound Hpos Hsum Hcap) as [Hpos1 Hsum1].
    pose proof (checkRateLimit_run L s) as Hrun. simpl in Hrun.
    destruct (checkRateLimit L s) as [[admitted|e] s1] eqn:Hcall.
    2:{ destruct (bool_decide _) in Hrun; discriminate Hrun. }
    simpl in Hpos1, Hsum1.
    rewrite (try_catch_bind_normal _ _ _ _ _ _ Hcall).
    assert (Hdeliver : ∀ sa, errorCounts sa = errorCounts s1 →
              limiterWithin bound
                (try_catch (deliverError L error context)
                   (fun err => log (LogSendErrorFailed (error_message err)) ;;;
                               ret VNull) sa).2).
    { intros sa Hsa.
      destruct (delivery_run (errorFormatter_format L error context)
                  (retryAttempts (config L)) LogSendErrorFailed sa)
        as (v & s' & Hdel & (Hc & _) & _).
      unfold deliverError. rewrite Hdel. simpl.
      apply (limiterWithin_same_counts bound s1); [congruence|done]. }
    destruct admitted; simpl negb; cbv iota.
    + destruct (deduplicate (config L)); [|by apply Hdeliver].
      destruct (checkDeduplication_total L error context s1)
        as (fresh & s_d & Hdedup & Hc & _).
      rewrite (try_catch_bind_normal _ _ _ _ _ _ Hdedup).
      destruct fresh; [by apply Hdeliver|].
      by apply (limiterWithin_same_counts bound s1).
    + by apply (limiterWithin_same_counts bound s1).
  - by rewrite (sendError_filtered _ _ _ _ Hfilter).
  - rewrite (sendError_filter_throws _ _ _ _ _ Hfilter).
    by apply (limiterWithin_same_counts bound s).
Qed.

Lemma cleanupTick_limiterWithin L s bound :
  limiterWithin bound s → limiterWithin bound (cleanupTick L s).2.
Proof.
  intros [Hpos Hsum]. rewrite cleanupTick_run. simpl. split.
  - by apply countsPositive_cleanOld.
  - etrans; [|exact Hsum]. apply sumCounts_filter_le.
    intros t c Hlook. specialize (Hpos t c Hlook). lia.
Qed.

Lemma afterOperation_limiterWithin L op s bound :
  rateLimitMax (config L) <= bound →
  limiterWithin bound s →
  limiterWithin bound (afterOperation L op s).
Proof.
  intros Hcap Hinv. destruct op as [error context|message options
                                   |message options| |]; simpl.
  - by apply sendError_limiterWithin.
  - destruct (sendCustomMessage_total L message options s)
      as (v & s' & Hrun & (Hc & _) & _).
    rewrite Hrun. by apply (limiterWithin_same_counts bound s).
  - destruct (sendRawMessage_total L message options s)
      as (v & s' & Hrun & (Hc & _) & _).
    rewrite Hrun. by apply (limiterWithin_same_counts bound s).
  - destruct Hinv as [Hpos Hsum].
    by apply checkRateLimit_invariant.
  - by apply cleanupTick_limiterWithin.
Qed.

(** X1.  Whatever the clock, the transport, the filter and the
    formatters do: after any sequence of calls of [sendError],
    [sendCustomMessage], [sendRawMessage] and [checkRateLimit] and of
    runs of the sweep, a limiter that started empty holds only positive
    counts, and their total is at most [max 0 rateLimitMax]. *)
Theorem limiter_never_exceeds_capacity L (ops : list operation) s :
  errorCounts s = ∅ →
  let s' := afterOperations L ops s in
  countsPositive (errorCounts s')
  ∧ sumCounts (errorCounts s') <= Z.max 0 (rateLimitMax (config L)).
Proof.
  intros Hfresh.
  assert (Hstart : limiterWithin (Z.max 0 (rateLimitMax (config L))) s).
  { split.
    - intros t c. by rewrite Hfresh, lookup_empty.
    - rewrite Hfresh, sumCounts_empty. lia. }
  clear Hfresh. unfold afterOperations.
  revert s Hstart. induction ops as [|op ops IH]; intros s Hstart; [done|].
  simpl. apply IH. apply afterOperation_limiterWithin; [lia|done].
Qed.

Lemma limiter_never_exceeds_capacity_witness :
  let L := sampleLogger 1000 2 true 5000 3 in
  let s := freshSys (fun n => 1700000000000 + 300 * Z.of_nat n) failTwiceThenOk in
  let ops := [OpSendError sampleError sampleContext;
              OpCheckRateLimit;
              OpSendCustomMessage "note" (mkMessageOptions None None);
              OpCleanupTick;
              OpSendError sampleError sampleContext;
              OpSendRawMessage "raw" noOptions;
              OpCheckRateLimit] in
  errorCounts s = ∅
  ∧ countsPositive (errorCounts (afterOperations L ops s))
  ∧ sumCounts (errorCounts (afterOperations L ops s))
    <= Z.max 0 (rateLimitMax (config L)).
Proof.
  intros L s ops. split; [reflexivity|].
  exact (limiter_never_exceeds_capacity L ops s eq_refl).
Defined.

End LimiterInvariant.
